(** * Synthesizer-based constrained PRF (src/src/cprf.py)

    A shallow embedding of the reference implementation of the
    synthesizer-based CPRF: [cmacPRF], [keyGen], [eval] and [constrain].

    Python objects are modelled as the program uses them:
    - [bytes] values are immutable lists of bytes;
    - the key matrix is a Python list of two row lists; lists are mutable
      objects, so they live in a store and are named by locations;
    - [secrets.token_bytes] reads the next bytes of an arbitrary tape;
    - exceptions are results [Raise e]; a raised exception leaves the store
      as it was at the point of failure;
    - the CMAC object of PyCryptodome is a parameter of the development. *)

From Stdlib Require Import Ascii String NArith Lia.
From Stdlib.Strings Require Import Byte.
From stdpp Require Import base list.
From Equations Require Import Equations.

Set Default Proof Using "Type".
Open Scope nat_scope.

(** ** Results and exceptions *)

(** The exceptions the program can raise.  [InvalidRef] is the only one
    that Python cannot produce: it is the result of following a location
    that the store does not hold. *)
Inductive exn : Type :=
| IndexError
| ValueError
| TypeError
| InvalidRef.

Inductive result (A : Type) : Type :=
| Ok (a : A)
| Raise (e : exn).
Arguments Ok {A} a.
Arguments Raise {A} e.

Definition is_ok {A} (r : result A) : bool :=
  match r with Ok _ => true | Raise _ => false end.

Abbreviation bytes := (list byte).
Abbreviation loc := nat.

(** ** The store *)

Record state : Type := State {
  mats : list (list loc);      (* list objects whose items are row lists *)
  rows : list (list bytes);    (* list objects whose items are bytes *)
  tape : nat -> byte;          (* the bytes the random source will deliver *)
  pos : nat                    (* how many of them were consumed *)
}.

(** ** Two monads: pure code that may raise, and code that uses the store *)

Class Monad (m : Type -> Type) : Type := {
  ret : forall {A}, A -> m A;
  bind : forall {A B}, m A -> (A -> m B) -> m B
}.

Declare Scope monad_scope.
Delimit Scope monad_scope with monad.
Notation "x <- c1 ;; c2" := (bind c1 (fun x => c2))
  (at level 100, c1 at next level, right associativity) : monad_scope.
Open Scope monad_scope.

Definition result_bind {A B} (r : result A) (k : A -> result B) : result B :=
  match r with Ok a => k a | Raise e => Raise e end.

#[export] Instance result_Monad : Monad result := {|
  ret := fun A a => Ok a;
  bind := fun A B => result_bind
|}.

Definition M (A : Type) : Type := state -> result A * state.

Definition M_bind {A B} (c : M A) (k : A -> M B) : M B :=
  fun s => match c s with
           | (Ok a, s') => k a s'
           | (Raise e, s') => (Raise e, s')
           end.

#[export] Instance M_Monad : Monad M := {|
  ret := fun A a s => (Ok a, s);
  bind := fun A B => M_bind
|}.

(** A call of pure code from code that uses the store. *)
Definition call {A} (r : result A) : M A := fun s => (r, s).

(** [for x in l: acc = f(acc, x)] *)
Fixpoint foldM {m} `{Monad m} {A B} (f : B -> A -> m B) (l : list A) (acc : B) : m B :=
  match l with
  | [] => ret acc
  | x :: l' => acc' <- f acc x ;; foldM f l' acc'
  end.

(** Python's [range(start, stop, step)] for a positive [step]. *)
Definition range (start stop step : nat) : list nat :=
  map (fun k => start + k * step) (seq 0 ((stop - start + (step - 1)) / step)).

(** [l[i]] on a local sequence. *)
Definition getitem {A} (l : list A) (i : nat) : result A :=
  match l !! i with
  | Some x => Ok x
  | None => Raise IndexError
  end.

(** ** Operations on the store *)

(** [m[i]] where [m] is a list of rows. *)
Definition mat_getitem (m : loc) (i : nat) : M loc := fun s =>
  match mats s !! m with
  | None => (Raise InvalidRef, s)
  | Some items => (getitem items i, s)
  end.

(** [r[i]] where [r] is a row. *)
Definition row_getitem (r : loc) (i : nat) : M bytes := fun s =>
  match rows s !! r with
  | None => (Raise InvalidRef, s)
  | Some items => (getitem items i, s)
  end.

(** [r[i] = v] where [r] is a row: the row object is updated in place. *)
Definition row_setitem (r : loc) (i : nat) (v : bytes) : M unit := fun s =>
  match rows s !! r with
  | None => (Raise InvalidRef, s)
  | Some items =>
      if decide (i < length items)
      then (Ok tt, State (mats s) (<[r := <[i := v]> items]> (rows s)) (tape s) (pos s))
      else (Raise IndexError, s)
  end.

(** A new row object holding [items]. *)
Definition new_row (items : list bytes) : M loc := fun s =>
  (Ok (length (rows s)), State (mats s) (rows s ++ [items]) (tape s) (pos s)).

(** A new list object holding the rows [items]. *)
Definition new_mat (items : list loc) : M loc := fun s =>
  (Ok (length (mats s)), State (mats s ++ [items]) (rows s) (tape s) (pos s)).

(** [secrets.token_bytes(n)] *)
Definition token_bytes (n : nat) : M bytes := fun s =>
  (Ok (map (tape s) (seq (pos s) n)), State (mats s) (rows s) (tape s) (pos s + n)).

(** ** Formatting and parsing of bits *)

Fixpoint bin_pos (p : positive) (acc : list ascii) : list ascii :=
  match p with
  | xH => "1"%char :: acc
  | xO q => bin_pos q ("0"%char :: acc)
  | xI q => bin_pos q ("1"%char :: acc)
  end.

(** The binary digits of [n], most significant first. *)
Definition bin_digits (n : N) : list ascii :=
  match n with
  | N0 => ["0"%char]
  | Npos p => bin_pos p []
  end.

Definition zfill (width : nat) (s : list ascii) : list ascii :=
  repeat "0"%char (width - length s) ++ s.

(** [f'{byte:08b}'] *)
Definition format_08b (b : byte) : list ascii :=
  zfill 8 (bin_digits (Byte.to_N b)).

(** [int(c)] for a one-character string. *)
Definition int_char (c : ascii) : result nat :=
  let n := nat_of_ascii c in
  if decide (48 <= n <= 57) then Ok (n - 48) else Raise ValueError.

(** [list(''.join(f'{byte:08b}' for byte in val))] *)
Definition binrep_of (val : bytes) : list ascii :=
  concat (map format_08b val).

(** ** The program *)

Definition PRF : Type := bytes -> bytes -> result bytes.
Definition Key : Type := PRF * loc.

(** [keyMat[b][i]] *)
Definition entry (keyMat : loc) (b i : nat) : M bytes :=
  r <- mat_getitem keyMat b ;;
  row_getitem r i.

(** [keyMat[int(binrep[i])][i]] *)
Definition selected (keyMat : loc) (binrep : list ascii) (i : nat) : M bytes :=
  c <- call (getitem binrep i) ;;
  b <- call (int_char c) ;;
  entry keyMat b i.

(** One round of the reduction: the body of the [while] loop,
    [tmp = [prf(leaves[i], leaves[i+1]) for i in range(0, len(leaves), 2)]]. *)
Definition fold_round (prf : PRF) (leaves : list bytes) : result (list bytes) :=
  foldM (fun tmp i =>
           a <- getitem leaves i ;;
           b <- getitem leaves (i + 1) ;;
           x <- prf a b ;;
           ret (tmp ++ [x]))
        (range 0 (length leaves) 2) [].

(** A value together with the equation that recalls where it came from. *)
Definition inspect {A} (a : A) : {b | a = b} := exist _ a eq_refl.

(** The [while len(leaves) > 1] loop followed by [return leaves[0]]. *)
Equations? find_root (prf : PRF) (leaves : list bytes) : result bytes
  by wf (length leaves) lt :=
  find_root prf leaves with inspect (decide (1 < length leaves)) := {
    | exist _ (left _) _ with inspect (fold_round prf leaves) := {
        | exist _ (Ok tmp) Htmp => find_root prf tmp
        | exist _ (Raise e) _ => Raise e };
    | exist _ (right _) _ => getitem leaves 0 }.
Proof.
  assert (Hlen : forall (idxs : list nat) acc out,
             foldM (fun tmp i =>
                      a <- getitem leaves i ;;
                      b <- getitem leaves (i + 1) ;;
                      x <- prf a b ;;
                      ret (tmp ++ [x])) idxs acc = Ok out ->
             length out = length acc + length idxs).
  { induction idxs as [|i idxs IH]; intros acc out; simpl.
    - intros [= <-]. lia.
    - destruct (getitem leaves i); simpl; [|discriminate].
      destruct (getitem leaves (i + 1)); simpl; [|discriminate].
      destruct (prf _ _); simpl; [|discriminate].
      intros H. apply IH in H. rewrite length_app in H. simpl in H. lia. }
  apply Hlen in Htmp. unfold range in Htmp.
  rewrite length_map, length_seq, Nat.sub_0_r in Htmp. simpl length in Htmp.
  rewrite Htmp. apply Nat.Div0.div_lt_upper_bound; lia.
Qed.

(** The first loop of [eval]: the leaves of the synthesizer,
    [prf(keyMat[int(binrep[i])][i], keyMat[int(binrep[i+1])][i+1])]
    for [i in range(0, len(binrep), 2)]. *)
Definition leaf_layer (prf : PRF) (keyMat : loc) (binrep : list ascii) : M (list bytes) :=
  foldM (fun leaves i =>
           k <- selected keyMat binrep i ;;
           m <- selected keyMat binrep (i + 1) ;;
           x <- call (prf k m) ;;
           ret (leaves ++ [x]))
        (range 0 (length binrep) 2) [].

(** [eval(key, val)] *)
Definition eval (key : Key) (val : bytes) : M bytes :=
  let binrep := binrep_of val in
  let '(prf, keyMat) := key in
  leaves <- leaf_layer prf keyMat binrep ;;
  call (find_root prf leaves).

(** [[keyMat[row][col] for col in range(128)]], as a new list object *)
Definition copy_row (keyMat : loc) (row : nat) : M loc :=
  items <- foldM (fun items col => x <- entry keyMat row col ;; ret (items ++ [x]))
                 (range 0 128 1) [] ;;
  new_row items.

(** The body of the loop of [constrain], for position [i] of the pattern. *)
Definition constrain_step (pattern : list ascii) (newKey : loc) (i : nat) : M unit :=
  c <- call (getitem pattern i) ;;
  if Ascii.eqb c "1" then
    t <- token_bytes 16 ;;
    r <- mat_getitem newKey 0 ;;
    row_setitem r i t
  else if Ascii.eqb c "0" then
    t <- token_bytes 16 ;;
    r <- mat_getitem newKey 1 ;;
    row_setitem r i t
  else ret tt.

(** [constrain(msk, pattern)] *)
Definition constrain (msk : Key) (pattern : list ascii) : M Key :=
  let '(prf, keyMat) := msk in
  rs <- foldM (fun rs row => r <- copy_row keyMat row ;; ret (rs ++ [r]))
              (range 0 2 1) [] ;;
  newKey <- new_mat rs ;;
  _ <- foldM (fun (_ : unit) i => constrain_step pattern newKey i)
             (range 0 (length pattern) 1) tt ;;
  ret (prf, newKey).

Section Program.
(** The CMAC object of [Crypto.Hash.CMAC]: construction from a key,
    absorbing a message, producing the tag. *)
Variable CMACobj : Type.
Variable CMAC_new : bytes -> result CMACobj.
Variable CMAC_update : CMACobj -> bytes -> result CMACobj.
Variable CMAC_digest : CMACobj -> result bytes.

Definition cmacPRF (key val : bytes) : result bytes :=
  f <- CMAC_new key ;;
  f' <- CMAC_update f val ;;
  CMAC_digest f'.

(** [[secrets.token_bytes(16) for _ in range(128)]], as a new list object *)
Definition random_row : M loc :=
  items <- foldM (fun items _ => t <- token_bytes 16 ;; ret (items ++ [t]))
                 (range 0 128 1) [] ;;
  new_row items.

Definition keyGen : M Key :=
  rs <- foldM (fun rs _ => r <- random_row ;; ret (rs ++ [r])) (range 0 2 1) [] ;;
  keyMat <- new_mat rs ;;
  ret (cmacPRF, keyMat).

End Program.

(** * Vocabulary of the properties *)

(** A computation that reads the store but never changes it. *)
Definition readonly {A} (c : M A) : Prop := forall s, snd (c s) = s.

(** The [i]-th bit of [val]: bit [7 - i mod 8] of byte [i / 8]. *)
Definition bit_of (val : bytes) (i : nat) : nat :=
  match val !! (i / 8) with
  | Some b => if N.testbit (Byte.to_N b) (N.of_nat (7 - i mod 8)) then 1 else 0
  | None => 0
  end.

(** The character that [format_08b] writes for a bit. *)
Definition digit (n : nat) : ascii :=
  match n with 0 => "0"%char | _ => "1"%char end.

(** The results of a list of computations, up to the first that raises. *)
Fixpoint sequence {A} (l : list (result A)) : result (list A) :=
  match l with
  | [] => Ok []
  | r :: l' => x <- r ;; xs <- sequence l' ;; ret (x :: xs)
  end.

(** Leaf [j] as the specification words it: the PRF applied to the entry
    selected by bit [2j] (the key) and the one selected by bit [2j+1]
    (the message). *)
Definition spec_leaf (prf : PRF) (keyMat : loc) (val : bytes) (s : state) (j : nat)
  : result bytes :=
  k <- fst (entry keyMat (bit_of val (2 * j)) (2 * j) s) ;;
  m <- fst (entry keyMat (bit_of val (2 * j + 1)) (2 * j + 1) s) ;;
  prf k m.

(** The matrix named by [keyMat] has exactly the two rows [R0] and [R1]. *)
Definition key_rows (s : state) (keyMat : loc) (R0 R1 : list bytes) : Prop :=
  exists r0 r1,
    mats s !! keyMat = Some [r0; r1] /\
    rows s !! r0 = Some R0 /\ rows s !! r1 = Some R1.

(** A 2 x 128 matrix of 16-byte entries. *)
Definition wf_rows (R0 R1 : list bytes) : Prop :=
  length R0 = 128 /\ length R1 = 128 /\
  Forall (fun x => length x = 16) R0 /\ Forall (fun x => length x = 16) R1.

(** A key as [keyGen] builds it: its matrix is 2 x 128 with 16-byte
    entries. *)
Definition wf_key (s : state) (key : Key) : Prop :=
  exists R0 R1, key_rows s (snd key) R0 R1 /\ wf_rows R0 R1.

(** The base PRF as its contract describes it: on a 16-byte key it returns
    a 16-byte value. *)
Definition prf_ok (prf : PRF) : Prop :=
  forall k m, length k = 16 -> exists t, prf k m = Ok t /\ length t = 16.

(** The [n] tokens of 16 bytes that start at position [p] of the tape. *)
Definition tokens (tp : nat -> byte) (p n : nat) : list bytes :=
  map (fun k => map tp (seq (p + 16 * k) 16)) (seq 0 n).

(** Value [j] of the next round: [prf(leaves[2j], leaves[2j+1])]. *)
Definition pair_at (prf : PRF) (leaves : list bytes) (j : nat) : result bytes :=
  a <- getitem leaves (2 * j) ;;
  b <- getitem leaves (2 * j + 1) ;;
  prf a b.

(** [n] is a power of two (so not 0). *)
Definition is_pow2 (n : nat) : bool := 2 ^ Nat.log2 n =? n.

(** The first [n] rounds of the loop. *)
Fixpoint rounds (prf : PRF) (n : nat) (leaves : list bytes) : result (list bytes) :=
  match n with
  | 0 => Ok leaves
  | S n' => tmp <- fold_round prf leaves ;; rounds prf n' tmp
  end.

(** The byte lengths on which [eval] returns a value: 1, 2, 4, 8 and 16. *)
Definition supported_length (n : nat) : bool := (n <=? 16) && is_pow2 n.

(** What the loop does to the new rows [A] (row 0) and [B] (row 1) and to
    the position [p] of the tape, from column [i] on. *)
Fixpoint rerandomize (tp : nat -> byte) (pattern : list ascii) (i : nat)
    (A B : list bytes) (p : nat) : result unit * (list bytes * list bytes * nat) :=
  match pattern with
  | [] => (Ok tt, (A, B, p))
  | c :: rest =>
      if Ascii.eqb c "1" then
        if decide (i < length A)
        then rerandomize tp rest (S i) (<[i := map tp (seq p 16)]> A) B (p + 16)
        else (Raise IndexError, (A, B, p + 16))
      else if Ascii.eqb c "0" then
        if decide (i < length B)
        then rerandomize tp rest (S i) A (<[i := map tp (seq p 16)]> B) (p + 16)
        else (Raise IndexError, (A, B, p + 16))
      else rerandomize tp rest (S i) A B p
  end.

(** A pattern character that fixes its position. *)
Definition fixed (c : ascii) : bool := Ascii.eqb c "1" || Ascii.eqb c "0".

(** The number of fixed positions, that is, of tokens drawn for them. *)
Fixpoint count_fixed (pattern : list ascii) : nat :=
  match pattern with
  | [] => 0
  | c :: rest => (if fixed c then 1 else 0) + count_fixed rest
  end.

(** The 16 bytes of the tape from position [p] on. *)
Definition token (tp : nat -> byte) (p : nat) : bytes := map tp (seq p 16).

(** Entry [i] of the new row 0 and of the new row 1, given the old rows. *)
Definition new_entry0 (tp : nat -> byte) (p : nat) (pattern : list ascii)
    (R0 : list bytes) (i : nat) : option bytes :=
  match pattern !! i with
  | Some c =>
      if Ascii.eqb c "1"
      then Some (token tp (p + 16 * count_fixed (take i pattern)))
      else R0 !! i
  | None => R0 !! i
  end.

Definition new_entry1 (tp : nat -> byte) (p : nat) (pattern : list ascii)
    (R1 : list bytes) (i : nat) : option bytes :=
  match pattern !! i with
  | Some c =>
      if Ascii.eqb c "1" then R1 !! i
      else if Ascii.eqb c "0"
           then Some (token tp (p + 16 * count_fixed (take i pattern)))
           else R1 !! i
  | None => R1 !! i
  end.

(** The bits of [val] agree with every fixed position of [pattern]. *)
Definition agrees (pattern : list ascii) (val : bytes) : Prop :=
  forall i, (pattern !! i = Some "0"%char -> bit_of val i = 0) /\
            (pattern !! i = Some "1"%char -> bit_of val i = 1).

(** Every list object that the key names is in the store. *)
Definition valid_key (s : state) (key : Key) : Prop :=
  exists rs, mats s !! snd key = Some rs /\
             Forall (fun r => r < length (rows s)) rs.

(** [s'] holds every list object of [s], unchanged, and maybe new ones. *)
Definition extends (s s' : state) : Prop :=
  mats s `prefix_of` mats s' /\ rows s `prefix_of` rows s'.

(** From column [i] on, every fixed character of [pattern] stands at a
    column below [n]. *)
Fixpoint fits (pattern : list ascii) (i n : nat) : bool :=
  match pattern with
  | [] => true
  | c :: rest => (negb (fixed c) || (i <? n)) && fits rest (S i) n
  end.

(** Leaf [j] of the tree over [val] when its first bit selects in column
    [off] of the matrix. *)
Definition leaf_at (prf : PRF) (keyMat : loc) (s : state) (off : nat) (val : bytes)
    (j : nat) : result bytes :=
  k <- fst (entry keyMat (bit_of val (2 * j)) (off + 2 * j) s) ;;
  m <- fst (entry keyMat (bit_of val (2 * j + 1)) (off + (2 * j + 1)) s) ;;
  prf k m.

(** The root of the tree over [val], built on the columns from [off] on. *)
Definition subtree (prf : PRF) (keyMat : loc) (s : state) (off : nat) (val : bytes)
  : result bytes :=
  leaves <- sequence (map (leaf_at prf keyMat s off val) (seq 0 (4 * length val))) ;;
  find_root prf leaves.

(** The number that a string of binary digits denotes, most significant
    digit first (the inverse of the formatting, Python's [int(s, 2)]). *)
Definition parse_bits (cs : list ascii) : N :=
  fold_left (fun n c => 2 * n + (if Ascii.eqb c "1" then 1 else 0))%N cs 0%N.

(** * A small instance to run the program on *)

Definition demo_byte (n : N) : byte :=
  match Byte.of_N (n mod 256) with Some b => b | None => x00 end.

Definition demo_checksum (msg : bytes) : N :=
  fold_left (fun a b => (a * 33 + Byte.to_N b) mod 256)%N msg 7%N.

(** A stand-in for the CMAC object: the key and the message absorbed so far.
    Like AES, it refuses keys that are not 16, 24 or 32 bytes long. *)
Definition demo_new (key : bytes) : result (bytes * bytes) :=
  if decide (length key = 16 \/ length key = 24 \/ length key = 32)
  then Ok (key, []) else Raise ValueError.

Definition demo_update (f : bytes * bytes) (val : bytes) : result (bytes * bytes) :=
  Ok (fst f, snd f ++ val).

Definition demo_digest (f : bytes * bytes) : result bytes :=
  Ok (map (fun k => demo_byte (Byte.to_N k * 5 + demo_checksum (snd f) + 1))
          (firstn 16 (fst f))).

Definition demo_prf : PRF := cmacPRF _ demo_new demo_update demo_digest.

Definition demo_tape (n : nat) : byte :=
  let m := N.of_nat n in demo_byte (m * m + 3 * m + 1).

Definition demo_state0 : state := State [] [] demo_tape 0.

Abbreviation demo_keyGen := (keyGen _ demo_new demo_update demo_digest).

(** The two rows of the matrix that [keyGen] builds from [demo_state0]. *)
Definition demo_R0 : list bytes := tokens demo_tape 0 128.
Definition demo_R1 : list bytes := tokens demo_tape 2048 128.

(** The store after one [keyGen]: the master key is [(demo_prf, 0)]. *)
Definition demo_state1 : state :=
  State [[0; 1]] [demo_R0; demo_R1] demo_tape 4096.

Definition demo_msk : Key := (demo_prf, 0).

Definition demo_val : bytes := [xa5; x00; xff; x3c; x81; x7e; x10; x01;
                                x23; x45; x67; x89; xab; xcd; xef; x5a].

(** A pattern that the first twelve bits of [demo_val] match. *)
Definition demo_pattern : list ascii := list_ascii_of_string "1*10**0100*0".

(** The store after [constrain(demo_msk, demo_pattern)]: the constrained key
    is [(demo_prf, 1)]. *)
Definition demo_state2 : state :=
  State ltac:(let t := eval vm_compute in (mats (snd (constrain demo_msk demo_pattern demo_state1))) in exact t)
        ltac:(let t := eval vm_compute in (rows (snd (constrain demo_msk demo_pattern demo_state1))) in exact t)
        demo_tape
        ltac:(let t := eval vm_compute in (pos (snd (constrain demo_msk demo_pattern demo_state1))) in exact t).

Definition demo_ck : Key := (demo_prf, 1).

(** * Properties *)

(** ** The monads *)

Lemma M_bind_run {A B} (c : M A) (k : A -> M B) s :
  (x <- c ;; k x) s =
  match c s with (Ok a, s') => k a s' | (Raise e, s') => (Raise e, s') end.
Proof. reflexivity. Qed.

Lemma readonly_ret {A} (a : A) : readonly (ret a).
Proof. intros s. reflexivity. Qed.

Lemma readonly_call {A} (r : result A) : readonly (call r).
Proof. intros s. reflexivity. Qed.

Lemma readonly_bind {A B} (c : M A) (k : A -> M B) :
  readonly c -> (forall a, readonly (k a)) -> readonly (x <- c ;; k x).
Proof.
  intros Hc Hk s. rewrite M_bind_run. specialize (Hc s).
  destruct (c s) as [[a|e] s']; simpl in Hc; subst s'; [apply Hk | reflexivity].
Qed.

Lemma readonly_foldM {A B} (f : B -> A -> M B) l :
  (forall acc x, readonly (f acc x)) -> forall acc, readonly (foldM f l acc).
Proof.
  intros Hf. induction l as [|x l IH]; intros acc; simpl.
  - apply readonly_ret.
  - apply (readonly_bind (f acc x)); auto.
Qed.

Lemma readonly_mat_getitem m i : readonly (mat_getitem m i).
Proof. intros s. unfold mat_getitem. now destruct (mats s !! m). Qed.

Lemma readonly_row_getitem r i : readonly (row_getitem r i).
Proof. intros s. unfold row_getitem. now destruct (rows s !! r). Qed.

Lemma readonly_entry keyMat b i : readonly (entry keyMat b i).
Proof.
  apply readonly_bind; [apply readonly_mat_getitem | intros; apply readonly_row_getitem].
Qed.

Lemma readonly_selected keyMat binrep i : readonly (selected keyMat binrep i).
Proof.
  repeat (apply readonly_bind; [apply readonly_call | intros]).
  apply readonly_entry.
Qed.

Lemma readonly_leaf_layer prf keyMat binrep : readonly (leaf_layer prf keyMat binrep).
Proof.
  apply readonly_foldM. intros acc i.
  repeat (apply readonly_bind; [apply readonly_selected | intros]).
  apply readonly_bind; [apply readonly_call | intros; apply readonly_ret].
Qed.

Lemma readonly_eval key val : readonly (eval key val).
Proof.
  destruct key as [prf keyMat]. unfold eval.
  apply readonly_bind; [apply readonly_leaf_layer | intros; apply readonly_call].
Qed.

Lemma readonly_run {A} (c : M A) s : readonly c -> c s = (fst (c s), s).
Proof. intros H. specialize (H s). destruct (c s); simpl in *; now subst. Qed.

(** ** Bits of the input, most significant first *)

Lemma format_08b_length b : length (format_08b b) = 8.
Proof. destruct b; reflexivity. Qed.

Lemma format_08b_lookup b r :
  r < 8 ->
  format_08b b !! r =
  Some (digit (if N.testbit (Byte.to_N b) (N.of_nat (7 - r)) then 1 else 0)).
Proof.
  intros Hr.
  do 8 (destruct r as [|r]; [destruct b; reflexivity|]). lia.
Qed.

Lemma binrep_length val : length (binrep_of val) = 8 * length val.
Proof.
  unfold binrep_of. induction val as [|b val IH]; simpl; [reflexivity|].
  rewrite length_app, format_08b_length, IH. lia.
Qed.

Lemma binrep_lookup_qr val : forall q r,
  r < 8 -> q < length val ->
  binrep_of val !! (8 * q + r) = Some (digit (bit_of val (8 * q + r))).
Proof.
  unfold binrep_of. induction val as [|b val IH]; intros q r Hr Hq; simpl in Hq; [lia|].
  assert (Hdiv : (8 * q + r) / 8 = q).
  { rewrite Nat.mul_comm, Nat.div_add_l by lia. rewrite Nat.div_small; lia. }
  assert (Hmod : (8 * q + r) mod 8 = r).
  { rewrite Nat.add_comm, Nat.mul_comm, Nat.Div0.mod_add. apply Nat.mod_small; lia. }
  cbn [map concat]. destruct q as [|q].
  - rewrite lookup_app_l by (rewrite format_08b_length; lia).
    unfold bit_of. rewrite Hdiv, Hmod. simpl. now apply format_08b_lookup.
  - rewrite lookup_app_r by (rewrite format_08b_length; lia).
    rewrite format_08b_length.
    replace (8 * S q + r - 8) with (8 * q + r) by lia.
    rewrite IH by lia. unfold bit_of. rewrite Hdiv, Hmod.
    replace ((8 * q + r) / 8) with q.
    + replace ((8 * q + r) mod 8) with r; [reflexivity|].
      rewrite Nat.add_comm, Nat.mul_comm, Nat.Div0.mod_add. symmetry. apply Nat.mod_small; lia.
    + rewrite Nat.mul_comm, Nat.div_add_l by lia. rewrite Nat.div_small; lia.
Qed.

Lemma binrep_lookup val i :
  i < 8 * length val ->
  binrep_of val !! i = Some (digit (bit_of val i)).
Proof.
  intros Hi. rewrite (Nat.div_mod_eq i 8) at 1 2.
  apply binrep_lookup_qr.
  - apply Nat.mod_upper_bound; lia.
  - apply Nat.Div0.div_lt_upper_bound; lia.
Qed.

Lemma bit_of_bound val i : bit_of val i < 2.
Proof. unfold bit_of. destruct (val !! (i / 8)); [destruct (N.testbit _ _)|]; lia. Qed.

Lemma int_char_digit n : n < 2 -> int_char (digit n) = Ok n.
Proof. intros Hn. destruct n as [|[|n]]; [reflexivity | reflexivity | lia]. Qed.

(** Within the input, [keyMat[int(binrep[i])][i]] is the entry selected by
    the [i]-th bit. *)
Lemma selected_run keyMat val i s :
  i < 8 * length val ->
  selected keyMat (binrep_of val) i s = entry keyMat (bit_of val i) i s.
Proof.
  intros Hi. unfold selected, call, getitem.
  rewrite !M_bind_run, (binrep_lookup val i Hi), M_bind_run.
  now rewrite int_char_digit by apply bit_of_bound.
Qed.

(** ** The reduction loop *)

Lemma find_root_eq prf leaves :
  find_root prf leaves =
  if decide (1 < length leaves)
  then tmp <- fold_round prf leaves ;; find_root prf tmp
  else getitem leaves 0.
Proof.
  funelim (find_root prf leaves);
    match goal with E : decide (1 < _) = _ |- _ => rewrite E end; simpl;
    try match goal with E : fold_round _ _ = _ |- _ => rewrite E end;
    reflexivity.
Qed.

(** ** Loops that collect a list *)

Lemma foldM_collect {A B} (f : list B -> A -> result (list B)) (h : A -> result B) l :
  (forall acc i, i ∈ l -> f acc i = (x <- h i ;; ret (acc ++ [x]))) ->
  forall acc,
    foldM f l acc = (rest <- sequence (map h l) ;; ret (acc ++ rest)).
Proof.
  induction l as [|i l IH]; intros Hf acc; simpl.
  - now rewrite app_nil_r.
  - rewrite Hf by apply list_elem_of_here.
    destruct (h i) as [x|e]; simpl; [|reflexivity].
    rewrite IH by (intros; apply Hf; now apply list_elem_of_further).
    destruct (sequence (map h l)) as [xs|e]; simpl; [|reflexivity].
    now rewrite <- app_assoc.
Qed.

Lemma foldM_collect_M {A B} (f : list B -> A -> M (list B)) (h : A -> result B) l s :
  (forall acc i, i ∈ l -> f acc i s = (x <- h i ;; ret (acc ++ [x]), s)) ->
  forall acc,
    foldM f l acc s = (rest <- sequence (map h l) ;; ret (acc ++ rest), s).
Proof.
  induction l as [|i l IH]; intros Hf acc; simpl.
  - now rewrite app_nil_r.
  - unfold M_bind. rewrite Hf by apply list_elem_of_here.
    destruct (h i) as [x|e]; simpl; [|reflexivity].
    rewrite IH by (intros; apply Hf; now apply list_elem_of_further).
    destruct (sequence (map h l)) as [xs|e]; simpl; [|reflexivity].
    now rewrite <- app_assoc.
Qed.

Lemma result_bind_nil_app {A} (r : result (list A)) :
  (rest <- r ;; ret ([] ++ rest)) = r.
Proof. now destruct r. Qed.

Lemma sequence_length {A} (l : list (result A)) xs :
  sequence l = Ok xs -> length xs = length l.
Proof.
  revert xs. induction l as [|r l IH]; intros xs; simpl.
  - now intros [= <-].
  - destruct r as [x|e]; simpl; [|discriminate].
    destruct (sequence l) as [ys|e]; simpl; [|discriminate].
    intros [= <-]. simpl. f_equal. now apply IH.
Qed.

Lemma sequence_lookup {A} (l : list (result A)) xs i x :
  sequence l = Ok xs -> xs !! i = Some x -> l !! i = Some (Ok x).
Proof.
  revert xs i. induction l as [|r l IH]; intros xs i; simpl.
  - intros [= <-]. now rewrite lookup_nil.
  - destruct r as [y|e]; simpl; [|discriminate].
    destruct (sequence l) as [ys|e]; simpl; [|discriminate].
    intros [= <-]. destruct i as [|i]; simpl.
    + now intros [= ->].
    + now apply IH.
Qed.

Lemma sequence_ext {A} (l1 l2 : list (result A)) : l1 = l2 -> sequence l1 = sequence l2.
Proof. now intros ->. Qed.

Lemma elem_of_range start stop step i :
  i ∈ range start stop step ->
  exists k, i = start + k * step /\ k < (stop - start + (step - 1)) / step.
Proof.
  unfold range. rewrite list_elem_of_In, in_map_iff.
  intros (k & <- & Hk). apply in_seq in Hk. exists k. split; [reflexivity | lia].
Qed.

(** ** The leaf layer *)

Lemma leaf_layer_run prf keyMat val s :
  leaf_layer prf keyMat (binrep_of val) s =
  (sequence (map (spec_leaf prf keyMat val s) (seq 0 (4 * length val))), s).
Proof.
  unfold leaf_layer.
  rewrite (foldM_collect_M _
             (fun i => k <- fst (entry keyMat (bit_of val i) i s) ;;
                       m <- fst (entry keyMat (bit_of val (i + 1)) (i + 1) s) ;;
                       prf k m)).
  - unfold range. rewrite binrep_length, map_map.
    replace ((8 * length val - 0 + (2 - 1)) / 2) with (4 * length val).
    + rewrite result_bind_nil_app. f_equal.
      apply sequence_ext, map_ext. intros j.
      unfold spec_leaf. now replace (0 + j * 2) with (2 * j) by lia.
    + replace (8 * length val - 0 + (2 - 1)) with (1 + 4 * length val * 2) by lia.
      rewrite Nat.div_add by lia. reflexivity.
  - intros acc i Hi. apply elem_of_range in Hi as (k & -> & Hk).
    rewrite binrep_length in Hk.
    assert (k < 4 * length val).
    { replace (8 * length val - 0 + (2 - 1)) with (1 + 4 * length val * 2) in Hk by lia.
      rewrite Nat.div_add in Hk by lia. simpl in Hk. lia. }
    rewrite !M_bind_run, selected_run by lia.
    rewrite (readonly_run _ s (readonly_entry _ _ _)).
    destruct (fst (entry _ _ _ s)) as [key|e]; simpl; [|reflexivity].
    rewrite M_bind_run, selected_run by lia.
    rewrite (readonly_run _ s (readonly_entry _ _ _)).
    destruct (fst (entry _ _ _ s)) as [msg|e]; simpl; [|reflexivity].
    unfold M_bind, call. now destruct (prf key msg).
Qed.

Lemma eval_run prf keyMat val s :
  eval (prf, keyMat) val s =
  (leaves <- sequence (map (spec_leaf prf keyMat val s) (seq 0 (4 * length val))) ;;
   find_root prf leaves, s).
Proof.
  unfold eval. rewrite M_bind_run, leaf_layer_run.
  now destruct (sequence _).
Qed.

(** [eval] looks at the store only through the entries that the bits of
    its input select. *)
Lemma eval_ext prf K1 K2 val s1 s2 :
  (forall i, i < 8 * length val ->
     fst (entry K1 (bit_of val i) i s1) = fst (entry K2 (bit_of val i) i s2)) ->
  fst (eval (prf, K1) val s1) = fst (eval (prf, K2) val s2).
Proof.
  intros Hsel. rewrite !eval_run. cbn [fst].
  replace (map (spec_leaf prf K1 val s1) (seq 0 (4 * length val)))
    with (map (spec_leaf prf K2 val s2) (seq 0 (4 * length val))); [reflexivity|].
  apply map_ext_in. intros j Hj. apply in_seq in Hj.
  unfold spec_leaf. now rewrite !Hsel by lia.
Qed.

(** ** Entries of a matrix with two rows *)

Lemma entry_key_rows s keyMat R0 R1 b i :
  key_rows s keyMat R0 R1 ->
  entry keyMat b i s =
  (match b with
   | 0 => getitem R0 i
   | 1 => getitem R1 i
   | _ => Raise IndexError
   end, s).
Proof.
  intros (r0 & r1 & Hm & H0 & H1). unfold entry, mat_getitem, row_getitem.
  rewrite M_bind_run, Hm. destruct b as [|[|b]]; cbn [getitem lookup list_lookup].
  - now rewrite H0.
  - now rewrite H1.
  - reflexivity.
Qed.

Lemma entry_wf s keyMat R0 R1 val i :
  key_rows s keyMat R0 R1 -> wf_rows R0 R1 -> i < 128 ->
  exists x, fst (entry keyMat (bit_of val i) i s) = Ok x /\ length x = 16.
Proof.
  intros Hk (Hl0 & Hl1 & Ha0 & Ha1) Hi.
  rewrite (entry_key_rows _ _ _ _ _ _ Hk). cbn [fst].
  pose proof (bit_of_bound val i) as Hb. unfold getitem.
  destruct (bit_of val i) as [|[|b]]; [| |lia].
  - destruct (lookup_lt_is_Some_2 R0 i) as [x Hx]; [lia|]. rewrite Hx.
    exists x. split; [reflexivity|]. eapply Forall_lookup_1 in Ha0; eauto.
  - destruct (lookup_lt_is_Some_2 R1 i) as [x Hx]; [lia|]. rewrite Hx.
    exists x. split; [reflexivity|]. eapply Forall_lookup_1 in Ha1; eauto.
Qed.

Lemma entry_wf_out s keyMat R0 R1 val i :
  key_rows s keyMat R0 R1 -> wf_rows R0 R1 -> 128 <= i ->
  fst (entry keyMat (bit_of val i) i s) = Raise IndexError.
Proof.
  intros Hk (Hl0 & Hl1 & _) Hi.
  rewrite (entry_key_rows _ _ _ _ _ _ Hk). cbn [fst]. unfold getitem.
  destruct (bit_of val i) as [|[|b]]; [| |reflexivity].
  - now rewrite lookup_ge_None_2 by lia.
  - now rewrite lookup_ge_None_2 by lia.
Qed.

(** ** Dependence on the selected entries only *)

(** C10. For a 16-byte value, two keys with the same PRF whose matrices
    agree at the entry [b(i)][i] for each bit position [i] evaluate to the
    same result; the entries of the other row of each column play no role. *)
Theorem eval_selected_entries_only prf K1 K2 val s :
  length val = 16 ->
  (forall i, i < 128 ->
     fst (entry K1 (bit_of val i) i s) = fst (entry K2 (bit_of val i) i s)) ->
  fst (eval (prf, K1) val s) = fst (eval (prf, K2) val s).
Proof.
  intros Hlen Hsel. apply eval_ext. intros i Hi. apply Hsel. lia.
Qed.

Lemma eval_selected_entries_only_witness :
  fst (eval (demo_prf, 0) demo_val demo_state2) =
  fst (eval (demo_prf, 1) demo_val demo_state2).
Proof.
  apply eval_selected_entries_only; [reflexivity|].
  intros i Hi.
  do 128 (destruct i as [|i]; [vm_compute; reflexivity|]). lia.
Defined.

(** ** The leaf layer of [eval] *)

(** C6. On a 16-byte input, [binrep] holds the 128 bits of the input, most
    significant bit of each byte first; the first loop of [eval] computes
    the 64 leaves [prf(keyMat[b(i)][i], keyMat[b(i+1)][i+1])], [i = 2j],
    in order (stopping at the first lookup or PRF call that raises), and
    [eval] returns the root that the reduction loop finds over them. *)
Theorem eval_leaf_layer prf keyMat val s :
  length val = 16 ->
  let leaves := sequence (map (spec_leaf prf keyMat val s) (seq 0 64)) in
  (forall i, i < 128 ->
     (c <- getitem (binrep_of val) i ;; int_char c) = Ok (bit_of val i)) /\
  leaf_layer prf keyMat (binrep_of val) s = (leaves, s) /\
  eval (prf, keyMat) val s = (ls <- leaves ;; find_root prf ls, s) /\
  (forall ls, leaves = Ok ls ->
     length ls = 64 /\
     forall j, j < 64 ->
       exists k m x,
         fst (entry keyMat (bit_of val (2 * j)) (2 * j) s) = Ok k /\
         fst (entry keyMat (bit_of val (2 * j + 1)) (2 * j + 1) s) = Ok m /\
         prf k m = Ok x /\ ls !! j = Some x).
Proof.
  intros Hlen leaves. subst leaves. repeat split.
  - intros i Hi. unfold getitem. rewrite binrep_lookup by lia. simpl.
    apply int_char_digit, bit_of_bound.
  - rewrite leaf_layer_run, Hlen. reflexivity.
  - rewrite eval_run, Hlen. reflexivity.
  - apply sequence_length in H. now rewrite H, length_map, length_seq.
  - intros j Hj.
    destruct (ls !! j) as [x|] eqn:Hx.
    + pose proof (sequence_lookup _ _ _ _ H Hx) as Hl.
      rewrite list_lookup_fmap, lookup_seq_lt in Hl by lia. simpl in Hl.
      inversion Hl as [Hl']; clear Hl; rename Hl' into Hl. unfold spec_leaf in Hl.
      destruct (fst (entry keyMat (bit_of val (2 * j)) (2 * j) s)) as [k|e];
        cbn [bind result_Monad result_bind] in Hl; [|discriminate].
      destruct (fst (entry keyMat (bit_of val (2 * j + 1)) (2 * j + 1) s)) as [m|e];
        cbn [bind result_Monad result_bind] in Hl; [|discriminate].
      exists k, m, x. auto.
    + apply lookup_ge_None in Hx. apply sequence_length in H.
      rewrite length_map, length_seq in H. lia.
Qed.

Lemma eval_leaf_layer_witness :
  eval demo_msk demo_val demo_state1 =
  (ls <- sequence (map (spec_leaf demo_prf 0 demo_val demo_state1) (seq 0 64)) ;;
   find_root demo_prf ls, demo_state1).
Proof.
  destruct (eval_leaf_layer demo_prf 0 demo_val demo_state1 eq_refl) as (_ & _ & H & _).
  exact H.
Defined.

(** ** Well-formed keys and key generation *)

Lemma tokens_S tp p n :
  tokens tp p (S n) = map tp (seq p 16) :: tokens tp (p + 16) n.
Proof.
  unfold tokens. change (seq 0 (S n)) with (0 :: seq 1 n).
  rewrite <- (seq_shift n 0). cbn [map]. rewrite map_map.
  f_equal.
  - now rewrite Nat.mul_0_r, Nat.add_0_r.
  - apply map_ext. intros k. do 2 f_equal. lia.
Qed.

Lemma tokens_length tp p n : length (tokens tp p n) = n.
Proof. unfold tokens. now rewrite length_map, length_seq. Qed.

Lemma tokens_16 tp p n : Forall (fun x => length x = 16) (tokens tp p n).
Proof.
  unfold tokens. apply Forall_forall. intros x Hx. apply list_elem_of_In, in_map_iff in Hx as (k & <- & _).
  now rewrite length_map, length_seq.
Qed.

Lemma token_loop_run {A} (l : list A) : forall acc s,
  foldM (fun items _ => t <- token_bytes 16 ;; ret (items ++ [t])) l acc s =
  (Ok (acc ++ tokens (tape s) (pos s) (length l)),
   State (mats s) (rows s) (tape s) (pos s + 16 * length l)).
Proof.
  induction l as [|x l IH]; intros acc s.
  - simpl. rewrite app_nil_r, Nat.add_0_r. now destruct s.
  - cbn [foldM]. rewrite M_bind_run. unfold token_bytes at 1.
    rewrite M_bind_run. cbn [ret M_Monad]. rewrite IH. cbn [mats rows tape pos length].
    rewrite tokens_S, <- app_assoc. cbn [app]. do 2 f_equal. lia.
Qed.

Lemma random_row_run s :
  random_row s =
  (Ok (length (rows s)),
   State (mats s) (rows s ++ [tokens (tape s) (pos s) 128]) (tape s) (pos s + 2048)).
Proof.
  unfold random_row. rewrite M_bind_run, token_loop_run. reflexivity.
Qed.

Lemma keyGen_run CMACobj CMAC_new CMAC_update CMAC_digest s :
  keyGen CMACobj CMAC_new CMAC_update CMAC_digest s =
  (Ok (cmacPRF CMACobj CMAC_new CMAC_update CMAC_digest, length (mats s)),
   State (mats s ++ [[length (rows s); S (length (rows s))]])
         (rows s ++ [tokens (tape s) (pos s) 128; tokens (tape s) (pos s + 2048) 128])
         (tape s) (pos s + 4096)).
Proof.
  unfold keyGen. change (range 0 2 1) with [0; 1]. cbn [foldM].
  rewrite !M_bind_run, random_row_run. cbn [ret M_Monad].
  rewrite !M_bind_run, random_row_run. cbn [ret M_Monad mats rows tape pos app].
  unfold new_mat. cbn [mats rows tape pos].
  rewrite length_app, <- app_assoc. cbn [length app].
  rewrite M_bind_run. cbn [mats rows tape pos].
  replace (length (rows s) + 1) with (S (length (rows s))) by lia.
  replace (pos s + 2048 + 2048) with (pos s + 4096) by lia.
  reflexivity.
Qed.

(** Every key that [keyGen] returns is well formed in the store it leaves,
    with [cmacPRF] as its PRF. *)
Lemma keyGen_wf CMACobj CMAC_new CMAC_update CMAC_digest s msk s' :
  keyGen CMACobj CMAC_new CMAC_update CMAC_digest s = (Ok msk, s') ->
  fst msk = cmacPRF CMACobj CMAC_new CMAC_update CMAC_digest /\ wf_key s' msk.
Proof.
  rewrite keyGen_run. intros [= <- <-]. split; [reflexivity|].
  exists (tokens (tape s) (pos s) 128), (tokens (tape s) (pos s + 2048) 128).
  split.
  - exists (length (rows s)), (S (length (rows s))). cbn [snd mats rows].
    split; [|split].
    + rewrite lookup_app_r, Nat.sub_diag by lia. reflexivity.
    + rewrite lookup_app_r, Nat.sub_diag by lia. reflexivity.
    + rewrite lookup_app_r by lia.
      now replace (S (length (rows s)) - length (rows s)) with 1 by lia.
  - repeat split; auto using tokens_length, tokens_16.
Qed.

(** ** Sequences of results *)

Lemma sequence_map_ok {A B} (P : B -> Prop) (h : A -> result B) idxs :
  (forall j, j ∈ idxs -> exists t, h j = Ok t /\ P t) ->
  exists xs, sequence (map h idxs) = Ok xs /\ length xs = length idxs /\ Forall P xs.
Proof.
  induction idxs as [|j idxs IH]; intros Hh; simpl.
  - exists []. auto.
  - destruct (Hh j) as (t & Ht & HP); [apply list_elem_of_here|].
    destruct IH as (xs & Hxs & Hlen & HF).
    { intros j' Hj'. apply Hh. now apply list_elem_of_further. }
    rewrite Ht, Hxs. simpl. exists (t :: xs). simpl. auto.
Qed.

Lemma sequence_map_raise {A B} (h : A -> result B) l1 x l2 e :
  (forall j, j ∈ l1 -> is_ok (h j) = true) ->
  h x = Raise e ->
  sequence (map h (l1 ++ x :: l2)) = Raise e.
Proof.
  intros Hok Hx. induction l1 as [|j l1 IH]; simpl.
  - now rewrite Hx.
  - specialize (Hok j (list_elem_of_here _ _)) as Hj.
    destruct (h j); [|discriminate]. simpl.
    rewrite IH; [reflexivity|]. intros j' Hj'. apply Hok. now apply list_elem_of_further.
Qed.

(** ** One round of the reduction *)

Lemma fold_round_run prf leaves :
  fold_round prf leaves =
  sequence (map (pair_at prf leaves) (seq 0 ((length leaves + 1) / 2))).
Proof.
  unfold fold_round.
  rewrite (foldM_collect _
             (fun i => a <- getitem leaves i ;; b <- getitem leaves (i + 1) ;; prf a b)).
  - rewrite result_bind_nil_app. unfold range.
    rewrite map_map, Nat.sub_0_r. apply sequence_ext, map_ext. intros j.
    unfold pair_at. now replace (0 + j * 2) with (2 * j) by lia.
  - intros acc i _. simpl.
    destruct (getitem leaves i); simpl; [|reflexivity].
    destruct (getitem leaves (i + 1)); simpl; [|reflexivity].
    now destruct (prf _ _).
Qed.

Lemma pair_at_ok prf leaves j :
  prf_ok prf -> Forall (fun x => length x = 16) leaves -> 2 * j + 1 < length leaves ->
  exists t, pair_at prf leaves j = Ok t /\ length t = 16.
Proof.
  intros Hprf Hall Hj. unfold pair_at, getitem.
  destruct (lookup_lt_is_Some_2 leaves (2 * j)) as [a Ha]; [lia|].
  destruct (lookup_lt_is_Some_2 leaves (2 * j + 1)) as [b Hb]; [lia|].
  rewrite Ha, Hb. cbn [bind result_Monad result_bind].
  apply Hprf. eapply Forall_lookup_1 in Hall; eauto.
Qed.

(** An even number of leaves is folded into half as many. *)
Lemma fold_round_even prf leaves n :
  prf_ok prf -> Forall (fun x => length x = 16) leaves -> length leaves = 2 * n ->
  exists tmp, fold_round prf leaves = Ok tmp /\ length tmp = n /\
              Forall (fun x => length x = 16) tmp.
Proof.
  intros Hprf Hall Hlen. rewrite fold_round_run.
  replace ((length leaves + 1) / 2) with n.
  - destruct (sequence_map_ok (fun x => length x = 16) (pair_at prf leaves) (seq 0 n))
      as (xs & Hxs & Hl & HF).
    + intros j Hj. apply list_elem_of_In, in_seq in Hj. apply pair_at_ok; auto. lia.
    + exists xs. rewrite length_seq in Hl. auto.
  - rewrite Hlen. replace (2 * n + 1) with (1 + n * 2) by lia.
    rewrite Nat.div_add by lia. reflexivity.
Qed.

(** An odd number of leaves makes the round read past the end. *)
Lemma fold_round_odd prf leaves n :
  prf_ok prf -> Forall (fun x => length x = 16) leaves -> length leaves = 2 * n + 1 ->
  fold_round prf leaves = Raise IndexError.
Proof.
  intros Hprf Hall Hlen. rewrite fold_round_run.
  replace ((length leaves + 1) / 2) with (S n).
  - rewrite seq_S. apply sequence_map_raise.
    + intros j Hj. apply list_elem_of_In, in_seq in Hj.
      destruct (pair_at_ok prf leaves j) as (t & -> & _); auto. lia.
    + unfold pair_at, getitem. cbn [Nat.add].
      destruct (lookup_lt_is_Some_2 leaves (2 * n)) as [a Ha]; [lia|].
      rewrite Ha. cbn [bind result_Monad result_bind].
      now rewrite lookup_ge_None_2 by lia.
  - rewrite Hlen. replace (2 * n + 1 + 1) with (0 + (S n) * 2) by lia.
    rewrite Nat.div_add by lia. reflexivity.
Qed.

(** ** The whole reduction *)

Lemma is_pow2_double n : 0 < n -> is_pow2 (2 * n) = is_pow2 n.
Proof.
  intros Hn. unfold is_pow2. rewrite Nat.log2_double by lia.
  rewrite Nat.pow_succ_r'.
  destruct (Nat.eqb_spec (2 ^ Nat.log2 n) n) as [E|E].
  - apply Nat.eqb_eq. lia.
  - apply Nat.eqb_neq. lia.
Qed.

Lemma is_pow2_succ_double n : 0 < n -> is_pow2 (2 * n + 1) = false.
Proof.
  intros Hn. unfold is_pow2. rewrite Nat.log2_succ_double by lia.
  rewrite Nat.pow_succ_r'. apply Nat.eqb_neq. lia.
Qed.

Lemma is_pow2_pow k : is_pow2 (2 ^ k) = true.
Proof. unfold is_pow2. rewrite Nat.log2_pow2 by lia. apply Nat.eqb_refl. Qed.

(** With a PRF that honours its contract, the loop finds a root exactly
    when the number of leaves is a power of two; otherwise it reads past
    the end of a sequence. *)
Lemma find_root_shape prf :
  prf_ok prf ->
  forall n leaves,
    length leaves = n -> Forall (fun x => length x = 16) leaves ->
    if is_pow2 n
    then exists r, find_root prf leaves = Ok r /\ length r = 16
    else find_root prf leaves = Raise IndexError.
Proof.
  intros Hprf n. induction n as [n IH] using lt_wf_ind. intros leaves Hlen Hall.
  rewrite find_root_eq. destruct (decide (1 < length leaves)) as [Hgt|Hle].
  - destruct (Nat.Even_or_Odd n) as [[m Hm]|[m Hm]].
    + destruct (fold_round_even prf leaves m) as (tmp & Htmp & Hl & Ha); auto; [lia|].
      rewrite Htmp. cbn [bind result_Monad result_bind].
      rewrite Hm, is_pow2_double by lia. apply IH; auto. lia.
    + rewrite (fold_round_odd prf leaves m) by (auto; lia).
      rewrite Hm, is_pow2_succ_double by lia. reflexivity.
  - destruct leaves as [|x [|y leaves]]; simpl in Hlen, Hle; subst n; [| |lia].
    + reflexivity.
    + cbn. exists x. split; [reflexivity|]. now inversion Hall.
Qed.

Lemma find_root_pow2 prf :
  prf_ok prf ->
  forall k leaves,
    length leaves = 2 ^ k -> Forall (fun x => length x = 16) leaves ->
    (forall j, j <= k ->
       exists lj, rounds prf j leaves = Ok lj /\ length lj = 2 ^ (k - j)) /\
    exists r, rounds prf k leaves = Ok [r] /\ length r = 16 /\
              find_root prf leaves = Ok r.
Proof.
  intros Hprf k. induction k as [|k IH]; intros leaves Hlen Hall.
  - split.
    + intros j Hj. exists leaves. replace j with 0 by lia. auto.
    + destruct leaves as [|x [|y leaves]]; simpl in Hlen; try lia.
      exists x. split; [reflexivity|]. split; [now inversion Hall|].
      rewrite find_root_eq. simpl. reflexivity.
  - rewrite Nat.pow_succ_r' in Hlen.
    destruct (fold_round_even prf leaves (2 ^ k)) as (tmp & Htmp & Hl & Ha); auto.
    destruct (IH tmp Hl Ha) as (Hrounds & r & Hr & Hr16 & Hroot).
    split.
    + intros [|j] Hj.
      * exists leaves. split; [reflexivity|]. now rewrite Nat.sub_0_r, Nat.pow_succ_r'.
      * cbn [rounds]. rewrite Htmp. cbn [bind result_Monad result_bind].
        apply Hrounds. lia.
    + exists r. cbn [rounds]. rewrite Htmp. cbn [bind result_Monad result_bind].
      repeat split; auto.
      rewrite find_root_eq.
      assert (1 <= 2 ^ k) by (apply Nat.le_succ_l, Nat.neq_0_lt_0, Nat.pow_nonzero; lia).
      destruct (decide (1 < length leaves)); [|lia].
      rewrite Htmp. exact Hroot.
Qed.

(** ** The leaf layer of a well-formed key *)

Lemma leaf_layer_wf prf keyMat val s :
  prf_ok prf -> wf_key s (prf, keyMat) -> length val <= 16 ->
  exists leaves,
    sequence (map (spec_leaf prf keyMat val s) (seq 0 (4 * length val))) = Ok leaves /\
    length leaves = 4 * length val /\ Forall (fun x => length x = 16) leaves.
Proof.
  intros Hprf (R0 & R1 & Hk & Hwf) Hlen.
  destruct (sequence_map_ok (fun x => length x = 16) (spec_leaf prf keyMat val s)
              (seq 0 (4 * length val))) as (xs & Hxs & Hl & HF).
  - intros j Hj. apply list_elem_of_In, in_seq in Hj. unfold spec_leaf.
    destruct (entry_wf s keyMat R0 R1 val (2 * j) Hk Hwf) as (k & -> & Hk16); [lia|].
    destruct (entry_wf s keyMat R0 R1 val (2 * j + 1) Hk Hwf) as (m & -> & _); [lia|].
    cbn [bind result_Monad result_bind]. now apply Hprf.
  - exists xs. rewrite length_seq in Hl. auto.
Qed.

(** More than 16 bytes: leaf 64 asks for column 128 of the matrix. *)
Lemma leaf_layer_too_long prf keyMat val s :
  prf_ok prf -> wf_key s (prf, keyMat) -> 16 < length val ->
  sequence (map (spec_leaf prf keyMat val s) (seq 0 (4 * length val))) = Raise IndexError.
Proof.
  intros Hprf (R0 & R1 & Hk & Hwf) Hlen.
  replace (4 * length val) with (64 + S (4 * length val - 65)) by lia.
  rewrite seq_app, <- (cons_seq (4 * length val - 65) (0 + 64)).
  apply sequence_map_raise.
  - intros j Hj. apply list_elem_of_In, in_seq in Hj. unfold spec_leaf.
    destruct (entry_wf s keyMat R0 R1 val (2 * j) Hk Hwf) as (k & -> & Hk16); [lia|].
    destruct (entry_wf s keyMat R0 R1 val (2 * j + 1) Hk Hwf) as (m & -> & _); [lia|].
    cbn [bind result_Monad result_bind].
    destruct (Hprf k m Hk16) as (t & -> & _). reflexivity.
  - unfold spec_leaf.
    now rewrite (entry_wf_out s keyMat R0 R1 val (2 * (0 + 64)) Hk Hwf) by lia.
Qed.

(** [eval] with a well-formed key and a PRF that honours its contract:
    a 16-byte result when the input has 1, 2, 4, 8 or 16 bytes, and
    [IndexError] for every other length. *)
Lemma eval_by_length prf keyMat val s :
  prf_ok prf -> wf_key s (prf, keyMat) ->
  if (length val <=? 16) && is_pow2 (length val)
  then exists r, eval (prf, keyMat) val s = (Ok r, s) /\ length r = 16
  else eval (prf, keyMat) val s = (Raise IndexError, s).
Proof.
  intros Hprf Hwf. rewrite eval_run.
  destruct (Nat.leb_spec (length val) 16) as [Hle|Hgt]; cbn [andb].
  - destruct (leaf_layer_wf prf keyMat val s Hprf Hwf Hle) as (leaves & -> & Hl & Ha).
    cbn [bind result_Monad result_bind].
    pose proof (find_root_shape prf Hprf _ leaves Hl Ha) as Hshape.
    destruct (Nat.eq_dec (length val) 0) as [E0|E0].
    + rewrite E0 in *. simpl in Hshape. now rewrite Hshape.
    + replace (4 * length val) with (2 * (2 * length val)) in Hshape by lia.
      rewrite !is_pow2_double in Hshape by lia.
      destruct (is_pow2 (length val)).
      * destruct Hshape as (r & -> & Hr). eauto.
      * now rewrite Hshape.
  - now rewrite leaf_layer_too_long.
Qed.

(** ** The demo instance is well formed *)

Lemma demo_prf_ok : prf_ok demo_prf.
Proof.
  intros k m Hk. unfold demo_prf, cmacPRF, demo_new.
  rewrite decide_True by auto. cbn [bind result_Monad result_bind demo_update demo_digest].
  eexists. split; [reflexivity|].
  rewrite length_map, length_firstn. cbn [fst snd]. lia.
Qed.

Lemma demo_keyGen_run : demo_keyGen demo_state0 = (Ok demo_msk, demo_state1).
Proof. rewrite keyGen_run. reflexivity. Qed.

Lemma demo_msk_wf : wf_key demo_state1 demo_msk.
Proof.
  exact (proj2 (keyGen_wf _ demo_new demo_update demo_digest
                  demo_state0 demo_msk demo_state1 demo_keyGen_run)).
Qed.

Lemma demo_key_rows : key_rows demo_state1 0 demo_R0 demo_R1.
Proof. exists 0, 1. repeat split. Qed.

(** ** Determinism of [eval] *)

(** C8. Two calls of [eval] on the same key and value, one after the
    other, return the same result, and neither changes the store.  The
    result depends on nothing but the key and the value: in any other
    store in which the matrix of the key has the same entries (whatever
    else it holds, and wherever the random tape stands) [eval] returns the
    same result. *)
Theorem eval_deterministic key val s :
  (let '(out1, s1) := eval key val s in
   let '(out2, s2) := eval key val s1 in
   out1 = out2 /\ s1 = s /\ s2 = s) /\
  (forall s',
     (forall b i, fst (entry (snd key) b i s') = fst (entry (snd key) b i s)) ->
     fst (eval key val s') = fst (eval key val s)).
Proof.
  split.
  - rewrite (readonly_run _ s (readonly_eval key val)).
    rewrite (readonly_run _ s (readonly_eval key val)).
    auto.
  - destruct key as [prf keyMat]. intros s' Hsame.
    apply eval_ext. intros i _. apply Hsame.
Qed.

Lemma eval_deterministic_witness :
  fst (eval demo_msk demo_val (State (mats demo_state1) (rows demo_state1) demo_tape 0)) =
  fst (eval demo_msk demo_val demo_state1).
Proof.
  apply (proj2 (eval_deterministic demo_msk demo_val demo_state1)).
  intros b i. cbn [snd demo_msk].
  assert (H : key_rows (State (mats demo_state1) (rows demo_state1) demo_tape 0)
                0 demo_R0 demo_R1) by exact demo_key_rows.
  now rewrite (entry_key_rows _ _ _ _ _ _ H), (entry_key_rows _ _ _ _ _ _ demo_key_rows).
Defined.

(** ** Termination of the reduction *)

(** C7. With a PRF that honours its contract: on [2^k] leaves of 16 bytes
    the loop halves the sequence every round ([2^(k-j)] values are left
    after [j] rounds), stops after [k] rounds with one value, and that
    16-byte value is what it returns.  In particular [eval] on a 16-byte
    input with a well-formed key builds 64 leaves and returns the single
    16-byte value left after 6 rounds. *)
Theorem eval_reduction_terminates prf :
  prf_ok prf ->
  (forall k leaves,
     length leaves = 2 ^ k -> Forall (fun x => length x = 16) leaves ->
     (forall j, j <= k ->
        exists lj, rounds prf j leaves = Ok lj /\ length lj = 2 ^ (k - j)) /\
     exists r, rounds prf k leaves = Ok [r] /\ length r = 16 /\
               find_root prf leaves = Ok r) /\
  (forall keyMat val s,
     wf_key s (prf, keyMat) -> length val = 16 ->
     exists leaves r,
       leaf_layer prf keyMat (binrep_of val) s = (Ok leaves, s) /\
       length leaves = 64 /\
       rounds prf 6 leaves = Ok [r] /\ length r = 16 /\
       eval (prf, keyMat) val s = (Ok r, s)).
Proof.
  intros Hprf. split.
  - intros k leaves. now apply find_root_pow2.
  - intros keyMat val s Hwf Hlen.
    destruct (leaf_layer_wf prf keyMat val s Hprf Hwf) as (leaves & Hleaves & Hl & Ha);
      [lia|].
    rewrite Hlen in Hl. change (4 * 16) with (2 ^ 6) in Hl.
    destruct (find_root_pow2 prf Hprf 6 leaves Hl Ha) as (_ & r & Hr & Hr16 & Hroot).
    exists leaves, r. rewrite leaf_layer_run, eval_run, Hleaves.
    cbn [bind result_Monad result_bind]. rewrite Hroot. auto.
Qed.

Lemma eval_reduction_terminates_witness :
  exists leaves r,
    leaf_layer demo_prf 0 (binrep_of demo_val) demo_state1 = (Ok leaves, demo_state1) /\
    length leaves = 64 /\
    rounds demo_prf 6 leaves = Ok [r] /\ length r = 16 /\
    eval demo_msk demo_val demo_state1 = (Ok r, demo_state1).
Proof.
  destruct (eval_reduction_terminates demo_prf demo_prf_ok) as [_ H].
  apply (H 0 demo_val demo_state1); [exact demo_msk_wf | reflexivity].
Defined.

(** ** Input lengths *)

Lemma supported_length_spec n :
  supported_length n = true <-> In n [1; 2; 4; 8; 16].
Proof.
  unfold supported_length. destruct (Nat.leb_spec n 16) as [Hle|Hgt].
  - do 17 (destruct n as [|n]; [vm_compute; intuition (discriminate || lia || auto)|]). lia.
  - simpl. intuition (discriminate || lia).
Qed.

(** C2, the claim fails: a one-byte input (8 bits, not 128) is evaluated
    without any error. *)
Lemma eval_short_input_accepted :
  8 * length [xa5] <> 128 /\
  exists r, eval demo_msk [xa5] demo_state1 = (Ok r, demo_state1).
Proof. split; [simpl; lia|]. eexists. vm_compute. reflexivity. Qed.

(** C2, amended. [eval] has no length check of its own.  The bit length
    of a bytes value is never odd.  With a well-formed 2 x 128 key and a
    PRF that honours its contract, [eval] returns a 16-byte result for
    inputs of 1, 2, 4, 8 or 16 bytes (so also for bit lengths other than
    128), and raises [IndexError] for every other length: the empty
    input, a length that is not a power of two, and more than 16 bytes.
    The store is unchanged in every case. *)
Theorem eval_input_length prf keyMat val s :
  prf_ok prf -> wf_key s (prf, keyMat) ->
  Nat.Even (length (binrep_of val)) /\
  (In (length val) [1; 2; 4; 8; 16] ->
   exists r, eval (prf, keyMat) val s = (Ok r, s) /\ length r = 16) /\
  (~ In (length val) [1; 2; 4; 8; 16] ->
   eval (prf, keyMat) val s = (Raise IndexError, s)).
Proof.
  intros Hprf Hwf.
  pose proof (eval_by_length prf keyMat val s Hprf Hwf) as H.
  fold (supported_length (length val)) in H.
  pose proof (supported_length_spec (length val)) as Hspec.
  split; [|split].
  - rewrite binrep_length. exists (4 * length val). lia.
  - intros Hin. apply Hspec in Hin. now rewrite Hin in H.
  - intros Hnin. destruct (supported_length (length val)); [|exact H].
    exfalso. apply Hnin, Hspec. reflexivity.
Qed.

Lemma eval_input_length_witness :
  (exists r, eval demo_msk [xa5; x5a] demo_state1 = (Ok r, demo_state1) /\ length r = 16) /\
  eval demo_msk [xa5; x5a; x01] demo_state1 = (Raise IndexError, demo_state1).
Proof.
  destruct (eval_input_length demo_prf 0 [xa5; x5a] demo_state1 demo_prf_ok demo_msk_wf)
    as (_ & Hok & _).
  destruct (eval_input_length demo_prf 0 [xa5; x5a; x01] demo_state1 demo_prf_ok demo_msk_wf)
    as (_ & _ & Herr).
  split.
  - apply Hok. simpl. auto.
  - apply Herr. simpl. intros [H|[H|[H|[H|[H|[]]]]]]; discriminate H.
Defined.

(** ** The copy made by [constrain] *)

Lemma range_step1 n : range 0 n 1 = seq 0 n.
Proof.
  unfold range. cbn [Nat.sub]. rewrite Nat.sub_0_r, Nat.add_0_r, Nat.div_1_r.
  rewrite <- (map_id (seq 0 n)) at 2. apply map_ext. intros k. lia.
Qed.

Lemma sequence_getitem {A} (R : list A) : forall n,
  n <= length R -> sequence (map (getitem R) (seq 0 n)) = Ok (take n R).
Proof.
  induction R as [|x R IH]; intros n Hn.
  - simpl in Hn. now replace n with 0 by lia.
  - destruct n as [|n]; [reflexivity|].
    change (seq 0 (S n)) with (0 :: seq 1 n). rewrite <- seq_shift, map_cons, map_map.
    cbn [sequence getitem lookup list_lookup bind result_Monad result_bind].
    change (map (fun k => getitem (x :: R) (S k)) (seq 0 n))
      with (map (getitem R) (seq 0 n)).
    rewrite IH by (simpl in Hn; lia). reflexivity.
Qed.

Lemma copy_row_run s keyMat R0 R1 row :
  key_rows s keyMat R0 R1 -> length R0 = 128 -> length R1 = 128 -> row < 2 ->
  copy_row keyMat row s =
  (Ok (length (rows s)),
   State (mats s) (rows s ++ [match row with 0 => R0 | _ => R1 end]) (tape s) (pos s)).
Proof.
  intros Hk Hl0 Hl1 Hrow. unfold copy_row. rewrite M_bind_run.
  rewrite (foldM_collect_M _ (getitem (match row with 0 => R0 | _ => R1 end))).
  - rewrite result_bind_nil_app, range_step1, sequence_getitem.
    + rewrite firstn_all2; [reflexivity|]. destruct row; lia.
    + destruct row; lia.
  - intros acc col _. rewrite M_bind_run, (entry_key_rows _ _ _ _ _ _ Hk).
    destruct row as [|[|row]]; [| |lia].
    + simpl. now destruct (getitem R0 col).
    + simpl. now destruct (getitem R1 col).
Qed.

Lemma key_rows_extend s s' keyMat R0 R1 :
  key_rows s keyMat R0 R1 ->
  mats s `prefix_of` mats s' -> rows s `prefix_of` rows s' ->
  key_rows s' keyMat R0 R1.
Proof.
  intros (r0 & r1 & Hm & H0 & H1) Hpm Hpr. exists r0, r1.
  repeat split; eauto using prefix_lookup_Some.
Qed.

(** ** The loop of [constrain] on the two new rows *)

Lemma constrain_loop_run pattern newKey M2 R tp :
  M2 !! newKey = Some [length R; S (length R)] ->
  forall rest pre A B p,
    pattern = pre ++ rest ->
    foldM (fun (_ : unit) i => constrain_step pattern newKey i)
          (seq (length pre) (length rest)) tt (State M2 (R ++ [A; B]) tp p) =
    let '(r, (A', B', p')) := rerandomize tp rest (length pre) A B p in
    (r, State M2 (R ++ [A'; B']) tp p').
Proof.
  intros HM2. induction rest as [|c rest IH]; intros pre A B p Hpat.
  - reflexivity.
  - cbn [length]. rewrite <- cons_seq. cbn [foldM rerandomize]. rewrite M_bind_run.
    assert (Hc : getitem pattern (length pre) = Ok c).
    { unfold getitem. rewrite Hpat, lookup_app_r, Nat.sub_diag by lia. reflexivity. }
    assert (Hnext : pattern = (pre ++ [c]) ++ rest) by now rewrite <- app_assoc.
    specialize (IH (pre ++ [c])). rewrite length_app, Nat.add_1_r in IH.
    unfold constrain_step at 1. unfold call. rewrite M_bind_run, Hc.
    destruct (Ascii.eqb c "1"); [|destruct (Ascii.eqb c "0")].
    + unfold token_bytes, mat_getitem, row_setitem.
      rewrite !M_bind_run. cbn [mats rows tape pos]. rewrite HM2.
      cbn [getitem lookup list_lookup]. rewrite ?M_bind_run. cbn [mats rows tape pos].
      rewrite lookup_app_r, Nat.sub_diag by lia. cbn [lookup list_lookup].
      destruct (decide (length pre < length A)); [|reflexivity].
      rewrite insert_app_r_alt, Nat.sub_diag by lia. cbn [insert list_insert].
      now apply IH.
    + unfold token_bytes, mat_getitem, row_setitem.
      rewrite !M_bind_run. cbn [mats rows tape pos]. rewrite HM2.
      cbn [getitem lookup list_lookup]. rewrite ?M_bind_run. cbn [mats rows tape pos].
      rewrite lookup_app_r by lia.
      replace (S (length R) - length R) with 1 by lia. cbn [lookup list_lookup].
      destruct (decide (length pre < length B)); [|reflexivity].
      rewrite insert_app_r_alt by lia.
      replace (S (length R) - length R) with 1 by lia. cbn [insert list_insert].
      now apply IH.
    + cbn [ret M_Monad]. now apply IH.
Qed.

(** [constrain] on a key whose matrix has two rows of 128 entries. *)
Lemma constrain_run prf keyMat pattern s R0 R1 :
  key_rows s keyMat R0 R1 -> length R0 = 128 -> length R1 = 128 ->
  constrain (prf, keyMat) pattern s =
  let '(r, (A', B', p')) := rerandomize (tape s) pattern 0 R0 R1 (pos s) in
  (_ <- r ;; ret (prf, length (mats s)),
   State (mats s ++ [[length (rows s); S (length (rows s))]])
         (rows s ++ [A'; B']) (tape s) p').
Proof.
  intros Hk Hl0 Hl1. unfold constrain. change (range 0 2 1) with [0; 1]. cbn [foldM].
  rewrite !M_bind_run, (copy_row_run s keyMat R0 R1 0 Hk Hl0 Hl1) by lia.
  cbn [ret M_Monad]. rewrite !M_bind_run.
  rewrite (copy_row_run _ keyMat R0 R1 1) by
    (try lia; eapply key_rows_extend; eauto; cbn [mats rows]; try reflexivity;
     now apply prefix_app_r).
  cbn [ret M_Monad mats rows tape pos app decide]. rewrite M_bind_run.
  unfold new_mat at 1. cbn [mats rows tape pos]. rewrite M_bind_run.
  rewrite range_step1, length_app, <- app_assoc. cbn [length app].
  replace (length (rows s) + 1) with (S (length (rows s))) by lia.
  assert (HM2 : (mats s ++ [[length (rows s); S (length (rows s))]]) !! length (mats s)
                = Some [length (rows s); S (length (rows s))])
    by now rewrite lookup_app_r, Nat.sub_diag by lia.
  pose proof (constrain_loop_run pattern _ _ (rows s) (tape s) HM2
                pattern [] R0 R1 (pos s) eq_refl) as Hloop.
  change (length (@nil ascii)) with 0 in Hloop. rewrite Hloop.
  destruct (rerandomize (tape s) pattern 0 R0 R1 (pos s)) as [[u|e] [[A' B'] p']];
    [destruct u|]; reflexivity.
Qed.

Lemma token_length tp p : length (token tp p) = 16.
Proof. unfold token. now rewrite length_map, length_seq. Qed.

(** The loop on a pattern that fits into the rows: it does not raise, draws
    one token per fixed position, and changes row 0 exactly at the ['1']
    positions and row 1 exactly at the ['0'] positions. *)
Lemma rerandomize_spec tp : forall pattern i A B p,
  i + length pattern <= length A -> length A = length B ->
  exists A' B',
    rerandomize tp pattern i A B p = (Ok tt, (A', B', p + 16 * count_fixed pattern)) /\
    length A' = length A /\ length B' = length B /\
    (forall col, col < i \/ i + length pattern <= col ->
       A' !! col = A !! col /\ B' !! col = B !! col) /\
    (forall j c, pattern !! j = Some c ->
       A' !! (i + j) =
         (if Ascii.eqb c "1"
          then Some (token tp (p + 16 * count_fixed (take j pattern)))
          else A !! (i + j)) /\
       B' !! (i + j) =
         (if Ascii.eqb c "1" then B !! (i + j)
          else if Ascii.eqb c "0"
               then Some (token tp (p + 16 * count_fixed (take j pattern)))
               else B !! (i + j))).
Proof.
  induction pattern as [|c rest IH]; intros i A B p Hfit Hlen.
  - exists A, B. cbn [rerandomize count_fixed]. rewrite Nat.mul_0_r, Nat.add_0_r.
    repeat split; auto;
      match goal with H : [] !! _ = Some _ |- _ => now rewrite lookup_nil in H end.
  - cbn [length] in Hfit. cbn [rerandomize count_fixed length].
    assert (Hfc : fixed c = Ascii.eqb c "1" || Ascii.eqb c "0") by reflexivity.
    destruct (Ascii.eqb c "1") eqn:E1; [|destruct (Ascii.eqb c "0") eqn:E0];
      cbn [orb] in Hfc; rewrite Hfc.
    + destruct (decide (i < length A)); [|lia].
      destruct (IH (S i) (<[i := map tp (seq p 16)]> A) B (p + 16))
        as (A' & B' & Hrun & HlA & HlB & Hframe & Hat);
        [rewrite length_insert; lia | now rewrite length_insert |].
      rewrite length_insert in HlA.
      exists A', B'. rewrite Hrun. split; [do 2 f_equal; lia|].
      split; [exact HlA|]. split; [exact HlB|]. split.
      * intros col Hcol. destruct (Hframe col) as [HA HB]; [lia|].
        rewrite HA, HB, list_lookup_insert_ne by lia. auto.
      * intros [|j] c' Hj.
        -- injection Hj as <-. rewrite E1, Nat.add_0_r.
           destruct (Hframe i) as [HA HB]; [lia|].
           rewrite HA, HB, list_lookup_insert_eq by lia.
           cbn [take count_fixed]. rewrite Nat.mul_0_r, Nat.add_0_r. auto.
        -- cbn [lookup list_lookup] in Hj. destruct (Hat j c' Hj) as [HA HB].
           replace (i + S j) with (S i + j) by lia. rewrite HA, HB.
           rewrite list_lookup_insert_ne by lia.
           cbn [take count_fixed]. rewrite Hfc.
           replace (p + 16 + 16 * count_fixed (take j rest))
             with (p + 16 * (1 + count_fixed (take j rest))) by lia.
           auto.
    + destruct (decide (i < length B)); [|lia].
      destruct (IH (S i) A (<[i := map tp (seq p 16)]> B) (p + 16))
        as (A' & B' & Hrun & HlA & HlB & Hframe & Hat);
        [lia | now rewrite length_insert |].
      rewrite length_insert in HlB.
      exists A', B'. rewrite Hrun. split; [do 2 f_equal; lia|].
      split; [exact HlA|]. split; [exact HlB|]. split.
      * intros col Hcol. destruct (Hframe col) as [HA HB]; [lia|].
        rewrite HA, HB, list_lookup_insert_ne by lia. auto.
      * intros [|j] c' Hj.
        -- injection Hj as <-. rewrite E1, E0, Nat.add_0_r.
           destruct (Hframe i) as [HA HB]; [lia|].
           rewrite HA, HB, list_lookup_insert_eq by lia.
           cbn [take count_fixed]. rewrite Nat.mul_0_r, Nat.add_0_r. auto.
        -- cbn [lookup list_lookup] in Hj. destruct (Hat j c' Hj) as [HA HB].
           replace (i + S j) with (S i + j) by lia. rewrite HA, HB.
           rewrite list_lookup_insert_ne by lia.
           cbn [take count_fixed]. rewrite Hfc.
           replace (p + 16 + 16 * count_fixed (take j rest))
             with (p + 16 * (1 + count_fixed (take j rest))) by lia.
           auto.
    + destruct (IH (S i) A B p) as (A' & B' & Hrun & HlA & HlB & Hframe & Hat);
        [lia | exact Hlen |].
      exists A', B'. rewrite Hrun. split; [reflexivity|].
      split; [exact HlA|]. split; [exact HlB|]. split.
      * intros col Hcol. apply Hframe. lia.
      * intros [|j] c' Hj.
        -- injection Hj as <-. rewrite E1, E0, Nat.add_0_r. apply Hframe. lia.
        -- cbn [lookup list_lookup] in Hj. destruct (Hat j c' Hj) as [HA HB].
           replace (i + S j) with (S i + j) by lia. rewrite HA, HB.
           cbn [take count_fixed]. rewrite Hfc.
           auto.
Qed.

(** ** [constrain] on a well-formed key *)

Lemma constrain_wf_run prf keyMat pattern s R0 R1 :
  key_rows s keyMat R0 R1 -> length R0 = 128 -> length R1 = 128 ->
  length pattern <= 128 ->
  exists N0 N1 s',
    constrain (prf, keyMat) pattern s = (Ok (prf, length (mats s)), s') /\
    mats s' = mats s ++ [[length (rows s); S (length (rows s))]] /\
    rows s' = rows s ++ [N0; N1] /\
    tape s' = tape s /\ pos s' = pos s + 16 * count_fixed pattern /\
    length N0 = 128 /\ length N1 = 128 /\
    (forall i, N0 !! i = new_entry0 (tape s) (pos s) pattern R0 i /\
               N1 !! i = new_entry1 (tape s) (pos s) pattern R1 i).
Proof.
  intros Hk Hl0 Hl1 Hpat.
  destruct (rerandomize_spec (tape s) pattern 0 R0 R1 (pos s))
    as (N0 & N1 & Hrun & HlA & HlB & Hframe & Hat); [cbn; lia | lia |].
  exists N0, N1. eexists. rewrite (constrain_run prf keyMat pattern s R0 R1 Hk Hl0 Hl1), Hrun.
  cbn [bind result_Monad result_bind ret mats rows tape pos].
  split; [reflexivity|]. repeat split; try lia.
  - unfold new_entry0. destruct (pattern !! i) as [c|] eqn:Hi.
    + apply (Hat i c Hi).
    + apply Hframe. apply lookup_ge_None in Hi. lia.
  - unfold new_entry1. destruct (pattern !! i) as [c|] eqn:Hi.
    + apply (Hat i c Hi).
    + apply Hframe. apply lookup_ge_None in Hi. lia.
Qed.

Lemma key_rows_new s s' N0 N1 :
  mats s' = mats s ++ [[length (rows s); S (length (rows s))]] ->
  rows s' = rows s ++ [N0; N1] ->
  key_rows s' (length (mats s)) N0 N1.
Proof.
  intros Hm Hr. exists (length (rows s)), (S (length (rows s))). rewrite Hm, Hr.
  split; [|split].
  - now rewrite lookup_app_r, Nat.sub_diag by lia.
  - now rewrite lookup_app_r, Nat.sub_diag by lia.
  - rewrite lookup_app_r by lia.
    now replace (S (length (rows s)) - length (rows s)) with 1 by lia.
Qed.

Lemma key_rows_old s s' keyMat R0 R1 X Y :
  key_rows s keyMat R0 R1 ->
  mats s' = mats s ++ X -> rows s' = rows s ++ Y ->
  key_rows s' keyMat R0 R1.
Proof.
  intros Hk Hm Hr. eapply key_rows_extend; eauto.
  - rewrite Hm. now apply prefix_app_r.
  - rewrite Hr. now apply prefix_app_r.
Qed.

(** ** The rerandomization rule *)

(** C4. For a key with a 2 x 128 matrix and a pattern of at most 128
    characters, [constrain] returns a key over a new matrix such that, at
    every column [i]: if [pattern[i] == '1'], row 0 holds a token of 16
    bytes drawn from the random source by this call (the next 16 unread
    bytes of the tape after the tokens of the earlier fixed positions) and
    row 1 is as in the original; if [pattern[i] == '0'], the same with the
    rows exchanged; if [pattern[i] == '*'], or [i >= len(pattern)], both
    rows are as in the original. *)
Theorem constrain_rerandomization_rule prf keyMat pattern s R0 R1 :
  key_rows s keyMat R0 R1 -> length R0 = 128 -> length R1 = 128 ->
  length pattern <= 128 ->
  exists newKey s' N0 N1,
    constrain (prf, keyMat) pattern s = (Ok (prf, newKey), s') /\
    key_rows s' newKey N0 N1 /\
    forall i, i < 128 ->
      let fresh := token (tape s) (pos s + 16 * count_fixed (take i pattern)) in
      length fresh = 16 /\
      (pattern !! i = Some "1"%char -> N0 !! i = Some fresh /\ N1 !! i = R1 !! i) /\
      (pattern !! i = Some "0"%char -> N1 !! i = Some fresh /\ N0 !! i = R0 !! i) /\
      (pattern !! i = Some "*"%char -> N0 !! i = R0 !! i /\ N1 !! i = R1 !! i) /\
      (length pattern <= i -> N0 !! i = R0 !! i /\ N1 !! i = R1 !! i).
Proof.
  intros Hk Hl0 Hl1 Hpat.
  destruct (constrain_wf_run prf keyMat pattern s R0 R1 Hk Hl0 Hl1 Hpat)
    as (N0 & N1 & s' & Hrun & Hm & Hr & _ & _ & _ & _ & Hat).
  exists (length (mats s)), s', N0, N1.
  split; [exact Hrun|]. split; [now apply key_rows_new|].
  intros i Hi fresh. destruct (Hat i) as [H0 H1].
  unfold new_entry0 in H0. unfold new_entry1 in H1.
  split; [apply token_length|]. repeat split.
  - rewrite H0, H. reflexivity.
  - rewrite H1, H. reflexivity.
  - rewrite H1, H. reflexivity.
  - rewrite H0, H. reflexivity.
  - rewrite H0, H. reflexivity.
  - rewrite H1, H. reflexivity.
  - rewrite H0, lookup_ge_None_2 by lia. reflexivity.
  - rewrite H1, lookup_ge_None_2 by lia. reflexivity.
Qed.

Lemma constrain_rerandomization_rule_witness :
  exists newKey s' N0 N1,
    constrain demo_msk demo_pattern demo_state1 = (Ok (demo_prf, newKey), s') /\
    key_rows s' newKey N0 N1 /\
    forall i, i < 128 ->
      let fresh := token demo_tape (4096 + 16 * count_fixed (take i demo_pattern)) in
      length fresh = 16 /\
      (demo_pattern !! i = Some "1"%char ->
       N0 !! i = Some fresh /\ N1 !! i = demo_R1 !! i) /\
      (demo_pattern !! i = Some "0"%char ->
       N1 !! i = Some fresh /\ N0 !! i = demo_R0 !! i) /\
      (demo_pattern !! i = Some "*"%char ->
       N0 !! i = demo_R0 !! i /\ N1 !! i = demo_R1 !! i) /\
      (length demo_pattern <= i -> N0 !! i = demo_R0 !! i /\ N1 !! i = demo_R1 !! i).
Proof.
  apply (constrain_rerandomization_rule demo_prf 0 demo_pattern demo_state1
           demo_R0 demo_R1 demo_key_rows).
  - reflexivity.
  - reflexivity.
  - vm_compute. lia.
Defined.

(** ** Characters outside the alphabet *)

(** C5, the claim fails: a pattern with the character ['x'] is accepted. *)
Lemma constrain_accepts_other_characters :
  let pattern := list_ascii_of_string "1x0" in
  pattern !! 1 = Some "x"%char /\
  exists ck s', constrain demo_msk pattern demo_state1 = (Ok ck, s').
Proof. split; [reflexivity|]. do 2 eexists. vm_compute. reflexivity. Qed.

(** C5, amended. [constrain] does not check the alphabet of the pattern.
    For a key with a 2 x 128 matrix and a pattern of at most 128
    characters, whatever they are, [constrain] returns a key, and a
    character other than ['0'] and ['1'] is treated like ['*']: both rows
    of the new matrix are as in the original at its column. *)
Theorem constrain_other_characters prf keyMat pattern s R0 R1 :
  key_rows s keyMat R0 R1 -> length R0 = 128 -> length R1 = 128 ->
  length pattern <= 128 ->
  exists newKey s' N0 N1,
    constrain (prf, keyMat) pattern s = (Ok (prf, newKey), s') /\
    key_rows s' newKey N0 N1 /\
    forall i c, pattern !! i = Some c -> c <> "0"%char -> c <> "1"%char ->
      N0 !! i = R0 !! i /\ N1 !! i = R1 !! i.
Proof.
  intros Hk Hl0 Hl1 Hpat.
  destruct (constrain_wf_run prf keyMat pattern s R0 R1 Hk Hl0 Hl1 Hpat)
    as (N0 & N1 & s' & Hrun & Hm & Hr & _ & _ & _ & _ & Hat).
  exists (length (mats s)), s', N0, N1.
  split; [exact Hrun|]. split; [now apply key_rows_new|].
  intros i c Hi Hc0 Hc1. destruct (Hat i) as [H0 H1].
  unfold new_entry0 in H0. unfold new_entry1 in H1. rewrite Hi in H0, H1.
  apply Ascii.eqb_neq in Hc0, Hc1. rewrite Hc1 in H0, H1. rewrite Hc0 in H1. auto.
Qed.

Lemma constrain_other_characters_witness :
  exists newKey s' N0 N1,
    constrain demo_msk (list_ascii_of_string "1x0") demo_state1
      = (Ok (demo_prf, newKey), s') /\
    key_rows s' newKey N0 N1 /\
    forall i c, list_ascii_of_string "1x0" !! i = Some c ->
      c <> "0"%char -> c <> "1"%char ->
      N0 !! i = demo_R0 !! i /\ N1 !! i = demo_R1 !! i.
Proof.
  apply (constrain_other_characters demo_prf 0 (list_ascii_of_string "1x0") demo_state1
           demo_R0 demo_R1 demo_key_rows).
  - reflexivity.
  - reflexivity.
  - vm_compute. lia.
Defined.

(** ** Consistency of the constrained key *)

Lemma constrain_selected_entries keyMat pattern val s R0 R1 N0 N1 s' i :
  key_rows s' keyMat R0 R1 -> key_rows s' (length (mats s)) N0 N1 ->
  agrees pattern val ->
  N0 !! i = new_entry0 (tape s) (pos s) pattern R0 i ->
  N1 !! i = new_entry1 (tape s) (pos s) pattern R1 i ->
  fst (entry (length (mats s)) (bit_of val i) i s') =
  fst (entry keyMat (bit_of val i) i s').
Proof.
  intros Hold Hnew Hag H0 H1.
  rewrite (entry_key_rows _ _ _ _ _ _ Hold), (entry_key_rows _ _ _ _ _ _ Hnew).
  cbn [fst]. unfold getitem. destruct (Hag i) as [Hz Ho].
  unfold new_entry0 in H0. unfold new_entry1 in H1.
  destruct (bit_of val i) as [|[|b]] eqn:Hb; [| |reflexivity].
  - rewrite H0. destruct (pattern !! i) as [c|]; [|reflexivity].
    destruct (Ascii.eqb c "1") eqn:E1; [|reflexivity].
    apply Ascii.eqb_eq in E1. subst c. specialize (Ho eq_refl). discriminate.
  - rewrite H1. destruct (pattern !! i) as [c|]; [|reflexivity].
    destruct (Ascii.eqb c "1") eqn:E1; [reflexivity|].
    destruct (Ascii.eqb c "0") eqn:E0; [|reflexivity].
    apply Ascii.eqb_eq in E0. subst c. specialize (Hz eq_refl). discriminate.
Qed.

(** C1. Let [msk] be a well-formed master key (every key that [keyGen]
    returns is one, see [keyGen_wf]), [pattern] a pattern of at most 128
    characters and [val] a 16-byte value whose bits agree with every fixed
    position of the pattern.  Then [constrain(msk, pattern)] returns a key
    [ck], and [eval(ck, val)] returns exactly what [eval(msk, val)]
    returns, after as well as before the call to [constrain]; with a PRF
    that honours its contract this common result is a 16-byte value. *)
Theorem constrain_consistency msk pattern val s :
  wf_key s msk -> length pattern <= 128 -> length val = 16 ->
  agrees pattern val ->
  exists ck s',
    constrain msk pattern s = (Ok ck, s') /\
    fst (eval ck val s') = fst (eval msk val s') /\
    fst (eval ck val s') = fst (eval msk val s) /\
    (prf_ok (fst msk) -> exists out, fst (eval ck val s') = Ok out /\ length out = 16).
Proof.
  destruct msk as [prf keyMat].
  intros Hwf Hpat Hval Hag.
  pose proof Hwf as (R0 & R1 & Hk & Hl0 & Hl1 & Ha0 & Ha1). cbn [snd] in Hk.
  destruct (constrain_wf_run prf keyMat pattern s R0 R1 Hk Hl0 Hl1 Hpat)
    as (N0 & N1 & s' & Hrun & Hm & Hr & _ & _ & _ & _ & Hat).
  pose proof (key_rows_new s s' N0 N1 Hm Hr) as Hnew.
  pose proof (key_rows_old s s' keyMat R0 R1 _ _ Hk Hm Hr) as Hold.
  assert (Hafter : fst (eval (prf, length (mats s)) val s') = fst (eval (prf, keyMat) val s')).
  { apply eval_ext. intros i _.
    destruct (Hat i) as [H0 H1]. eapply constrain_selected_entries; eauto. }
  assert (Hbefore : fst (eval (prf, keyMat) val s') = fst (eval (prf, keyMat) val s)).
  { apply eval_ext. intros i _.
    now rewrite (entry_key_rows _ _ _ _ _ _ Hold), (entry_key_rows _ _ _ _ _ _ Hk). }
  exists (prf, length (mats s)), s'. split; [exact Hrun|]. split; [exact Hafter|].
  split; [congruence|].
  intros Hprf. cbn [fst] in Hprf. rewrite Hafter, Hbefore.
  pose proof (eval_by_length prf keyMat val s Hprf Hwf) as H.
  replace ((length val <=? 16) && is_pow2 (length val)) with true in H
    by now rewrite Hval.
  destruct H as (r & -> & Hr16). eauto.
Qed.

Lemma demo_agrees : agrees demo_pattern demo_val.
Proof.
  intros i.
  do 12 (destruct i as [|i];
         [split; intros H; vm_compute in H |- *; (reflexivity || discriminate H)|]).
  split; intros H; discriminate H.
Qed.

Lemma constrain_consistency_witness :
  exists ck s',
    constrain demo_msk demo_pattern demo_state1 = (Ok ck, s') /\
    fst (eval ck demo_val s') = fst (eval demo_msk demo_val s') /\
    fst (eval ck demo_val s') = fst (eval demo_msk demo_val demo_state1) /\
    (prf_ok (fst demo_msk) ->
     exists out, fst (eval ck demo_val s') = Ok out /\ length out = 16).
Proof.
  apply (constrain_consistency demo_msk demo_pattern demo_val demo_state1 demo_msk_wf).
  - vm_compute. lia.
  - reflexivity.
  - exact demo_agrees.
Defined.

(** ** The master key is not changed *)

(** C3. [constrain] works on new list objects only: every list that the
    store held before the call is in it, unchanged, after the call, whatever
    the pattern and whether or not the call raises.  So the matrix of a
    well-formed master key has the same two rows with the same entries, and
    every [eval] with the master key returns after the call what it
    returned before. *)
Theorem constrain_non_mutation msk pattern s :
  wf_key s msk ->
  let s' := snd (constrain msk pattern s) in
  mats s `prefix_of` mats s' /\
  rows s `prefix_of` rows s' /\
  (forall R0 R1, key_rows s (snd msk) R0 R1 -> key_rows s' (snd msk) R0 R1) /\
  (forall val, fst (eval msk val s') = fst (eval msk val s)).
Proof.
  destruct msk as [prf keyMat].
  intros (R0 & R1 & Hk & Hl0 & Hl1 & _). cbn [snd] in Hk |- *.
  rewrite (constrain_run prf keyMat pattern s R0 R1 Hk Hl0 Hl1).
  destruct (rerandomize (tape s) pattern 0 R0 R1 (pos s)) as [r [[A' B'] p']].
  cbn [snd mats rows].
  assert (Hold : forall X0 X1, key_rows s keyMat X0 X1 ->
            key_rows (State (mats s ++ [[length (rows s); S (length (rows s))]])
                            (rows s ++ [A'; B']) (tape s) p') keyMat X0 X1).
  { intros X0 X1 HX. eapply key_rows_old; eauto; reflexivity. }
  split; [now apply prefix_app_r|]. split; [now apply prefix_app_r|].
  split; [exact Hold|].
  intros val. apply eval_ext. intros i _.
  now rewrite (entry_key_rows _ _ _ _ _ _ (Hold _ _ Hk)), (entry_key_rows _ _ _ _ _ _ Hk).
Qed.

Lemma constrain_non_mutation_witness :
  let s' := snd (constrain demo_msk demo_pattern demo_state1) in
  mats demo_state1 `prefix_of` mats s' /\
  rows demo_state1 `prefix_of` rows s' /\
  (forall R0 R1, key_rows demo_state1 0 R0 R1 -> key_rows s' 0 R0 R1) /\
  (forall val, fst (eval demo_msk val s') = fst (eval demo_msk val demo_state1)).
Proof.
  exact (constrain_non_mutation demo_msk demo_pattern demo_state1 demo_msk_wf).
Defined.

(** * Further properties of the program *)

(** ** Stores that grow *)

Lemma extends_refl s : extends s s.
Proof. split; reflexivity. Qed.

Lemma extends_trans s1 s2 s3 : extends s1 s2 -> extends s2 s3 -> extends s1 s3.
Proof. intros [Hm1 Hr1] [Hm2 Hr2]. split; etransitivity; eauto. Qed.

Lemma extends_app s X Y tp p :
  extends s (State (mats s ++ X) (rows s ++ Y) tp p).
Proof. split; now apply prefix_app_r. Qed.

Lemma valid_key_extends s s' key :
  valid_key s key -> extends s s' -> valid_key s' key.
Proof.
  intros (rs & Hm & Hrs) [Hpm Hpr]. exists rs. split.
  - eapply prefix_lookup_Some; eauto.
  - eapply Forall_impl; [exact Hrs|]. intros r Hr. cbn in Hr |- *.
    apply prefix_length in Hpr. lia.
Qed.

Lemma entry_extends s s' prf keyMat b i :
  valid_key s (prf, keyMat) -> extends s s' ->
  fst (entry keyMat b i s') = fst (entry keyMat b i s).
Proof.
  intros (rs & Hm & Hrs) [Hpm Hpr]. cbn [snd] in Hm.
  unfold entry, mat_getitem, row_getitem. rewrite !M_bind_run.
  rewrite Hm, (prefix_lookup_Some _ _ _ _ Hm Hpm). unfold getitem at 1 3.
  destruct (rs !! b) as [r|] eqn:Hb; [|reflexivity].
  pose proof (Forall_lookup_1 _ _ _ _ Hrs Hb) as Hr. cbn in Hr.
  destruct (lookup_lt_is_Some_2 (rows s) r Hr) as [R HR].
  now rewrite HR, (prefix_lookup_Some _ _ _ _ HR Hpr).
Qed.

Lemma eval_extends s s' key val :
  valid_key s key -> extends s s' ->
  fst (eval key val s') = fst (eval key val s).
Proof.
  destruct key as [prf keyMat]. intros Hv He.
  apply eval_ext. intros i _. eapply entry_extends; eauto.
Qed.

Lemma wf_key_valid s key : wf_key s key -> valid_key s key.
Proof.
  intros (R0 & R1 & (r0 & r1 & Hm & H0 & H1) & _). exists [r0; r1]. split; [exact Hm|].
  repeat constructor; eapply lookup_lt_Some; eauto.
Qed.

Lemma tokens_lookup tp p n k :
  k < n -> tokens tp p n !! k = Some (token tp (p + 16 * k)).
Proof.
  intros Hk. unfold tokens, token.
  rewrite list_lookup_fmap, lookup_seq_lt by lia. reflexivity.
Qed.

(** ** Key generation *)

(** [keyGen] never raises.  It returns [cmacPRF] with a new matrix of two
    new, distinct rows; entry [r][c] is the token that starts at byte
    [16 * (128 r + c)] of the unread tape, so the 256 entries are drawn
    row by row from 4096 consecutive bytes, which are then consumed; the
    key is well formed, and every list that was in the store is still
    there, unchanged. *)
Theorem keyGen_fresh_key CMACobj CMAC_new CMAC_update CMAC_digest s :
  exists s',
    keyGen CMACobj CMAC_new CMAC_update CMAC_digest s =
      (Ok (cmacPRF CMACobj CMAC_new CMAC_update CMAC_digest, length (mats s)), s') /\
    extends s s' /\
    mats s' !! length (mats s) = Some [length (rows s); S (length (rows s))] /\
    length (mats s') = S (length (mats s)) /\
    length (rows s') = S (S (length (rows s))) /\
    tape s' = tape s /\ pos s' = pos s + 4096 /\
    wf_key s' (cmacPRF CMACobj CMAC_new CMAC_update CMAC_digest, length (mats s)) /\
    forall r c, r < 2 -> c < 128 ->
      fst (entry (length (mats s)) r c s') =
      Ok (token (tape s) (pos s + 16 * (128 * r + c))).
Proof.
  eexists. split; [apply keyGen_run|].
  destruct (keyGen_wf _ _ _ _ _ _ _ (keyGen_run CMACobj CMAC_new CMAC_update CMAC_digest s))
    as [_ Hwf].
  cbn [mats rows tape pos].
  split; [apply extends_app|].
  split; [now rewrite lookup_app_r, Nat.sub_diag by lia|].
  split; [rewrite length_app; simpl; lia|].
  split; [rewrite length_app; simpl; lia|].
  split; [reflexivity|]. split; [reflexivity|]. split; [exact Hwf|].
  intros r c Hr Hc.
  assert (Hk : key_rows
            (State (mats s ++ [[length (rows s); S (length (rows s))]])
                   (rows s ++ [tokens (tape s) (pos s) 128;
                               tokens (tape s) (pos s + 2048) 128])
                   (tape s) (pos s + 4096))
            (length (mats s))
            (tokens (tape s) (pos s) 128) (tokens (tape s) (pos s + 2048) 128)).
  { eapply key_rows_new; reflexivity. }
  rewrite (entry_key_rows _ _ _ _ _ _ Hk). cbn [fst]. unfold getitem.
  destruct r as [|[|r]]; [| |lia].
  - rewrite tokens_lookup by lia. do 2 f_equal; lia.
  - rewrite tokens_lookup by lia. do 2 f_equal; lia.
Qed.

(** Generating a key does not disturb the keys that exist: a key whose
    lists are in the store names the same lists afterwards, and [eval]
    with it returns what it returned before. *)
Theorem keyGen_preserves_keys CMACobj CMAC_new CMAC_update CMAC_digest key s :
  valid_key s key ->
  let s' := snd (keyGen CMACobj CMAC_new CMAC_update CMAC_digest s) in
  valid_key s' key /\
  forall val, fst (eval key val s') = fst (eval key val s).
Proof.
  intros Hv s'. subst s'. rewrite keyGen_run. cbn [snd].
  split.
  - eapply valid_key_extends; [exact Hv | apply extends_app].
  - intros val. apply eval_extends; [exact Hv | apply extends_app].
Qed.

Lemma keyGen_preserves_keys_witness :
  let s' := snd (demo_keyGen demo_state1) in
  valid_key s' demo_msk /\
  forall val, fst (eval demo_msk val s') = fst (eval demo_msk val demo_state1).
Proof.
  exact (keyGen_preserves_keys _ demo_new demo_update demo_digest demo_msk demo_state1
           (wf_key_valid _ _ demo_msk_wf)).
Defined.

(** ** The empty input *)

(** On the empty input no leaf is built, the loop is not entered and
    [leaves[0]] raises [IndexError], whatever the key and the store (the
    matrix is not even read). *)
Theorem eval_empty_input key s : eval key [] s = (Raise IndexError, s).
Proof.
  destruct key as [prf keyMat]. unfold eval, leaf_layer.
  change (range 0 (length (binrep_of [])) 2) with (@nil nat). cbn [foldM].
  rewrite M_bind_run. cbn [ret M_Monad]. unfold call.
  now rewrite find_root_eq.
Qed.

(** ** What [constrain] leaves alone *)

Lemma copy_row_cases keyMat row s :
  (exists e, copy_row keyMat row s = (Raise e, s)) \/
  (exists items,
     copy_row keyMat row s =
     (Ok (length (rows s)), State (mats s) (rows s ++ [items]) (tape s) (pos s))).
Proof.
  unfold copy_row. rewrite M_bind_run.
  rewrite (foldM_collect_M _ (fun col => fst (entry keyMat row col s))).
  - rewrite result_bind_nil_app. destruct (sequence _) as [items|e]; eauto.
  - intros acc col _. rewrite M_bind_run, (readonly_run _ s (readonly_entry _ _ _)).
    now destruct (fst (entry keyMat row col s)).
Qed.

Lemma constrain_shape msk pattern s :
  exists r X Y p',
    constrain msk pattern s = (r, State (mats s ++ X) (rows s ++ Y) (tape s) p').
Proof.
  destruct msk as [prf keyMat]. unfold constrain.
  change (range 0 2 1) with [0; 1]. cbn [foldM]. rewrite !M_bind_run.
  destruct (copy_row_cases keyMat 0 s) as [[e H0]|[A H0]]; rewrite H0.
  { exists (Raise e), [], [], (pos s). rewrite !app_nil_r. now destruct s. }
  cbn [ret M_Monad]. rewrite !M_bind_run.
  destruct (copy_row_cases keyMat 1
              (State (mats s) (rows s ++ [A]) (tape s) (pos s))) as [[e H1]|[B H1]];
    rewrite H1.
  { exists (Raise e), [], [A], (pos s). now rewrite app_nil_r. }
  cbn [ret M_Monad mats rows tape pos app]. rewrite M_bind_run.
  unfold new_mat at 1. cbn [mats rows tape pos]. rewrite M_bind_run.
  rewrite range_step1, length_app, <- app_assoc. cbn [length app].
  replace (length (rows s) + 1) with (S (length (rows s))) by lia.
  assert (HM2 : (mats s ++ [[length (rows s); S (length (rows s))]]) !! length (mats s)
                = Some [length (rows s); S (length (rows s))])
    by now rewrite lookup_app_r, Nat.sub_diag by lia.
  pose proof (constrain_loop_run pattern _ _ (rows s) (tape s) HM2
                pattern [] A B (pos s) eq_refl) as Hloop.
  change (length (@nil ascii)) with 0 in Hloop. rewrite Hloop.
  destruct (rerandomize (tape s) pattern 0 A B (pos s)) as [[u|e] [[A' B'] p']];
    cbn [ret M_Monad]; eauto.
Qed.

Lemma constrain_extends msk pattern s :
  extends s (snd (constrain msk pattern s)) /\
  tape (snd (constrain msk pattern s)) = tape s.
Proof.
  destruct (constrain_shape msk pattern s) as (r & X & Y & p' & ->). cbn [snd tape].
  split; [apply extends_app | reflexivity].
Qed.

(** [constrain] never stores into a list object that existed before the
    call, whatever key and pattern it is given and whether or not it
    raises.  So every key that was usable before the call, not only the
    one being constrained, names the same lists afterwards and evaluates
    every input to the same result; and the random tape itself is only
    read. *)
Theorem constrain_preserves_keys msk pattern key s :
  valid_key s key ->
  let s' := snd (constrain msk pattern s) in
  extends s s' /\ tape s' = tape s /\ valid_key s' key /\
  forall val, fst (eval key val s') = fst (eval key val s).
Proof.
  intros Hv s'. destruct (constrain_extends msk pattern s) as [He Ht].
  split; [exact He|]. split; [exact Ht|]. split.
  - eapply valid_key_extends; eauto.
  - intros val. now apply eval_extends.
Qed.

Lemma constrain_preserves_keys_witness :
  let s' := snd (constrain demo_msk (list_ascii_of_string "0011") demo_state2) in
  extends demo_state2 s' /\ tape s' = tape demo_state2 /\ valid_key s' demo_ck /\
  forall val, fst (eval demo_ck val s') = fst (eval demo_ck val demo_state2).
Proof.
  apply (constrain_preserves_keys demo_msk (list_ascii_of_string "0011") demo_ck demo_state2).
  exists [2; 3]. split; [reflexivity|]. repeat constructor; cbn; lia.
Defined.

(** ** The key that [constrain] returns *)

Lemma Forall_lookup_16 (N R : list bytes) (f : nat -> option bytes) :
  length N = length R ->
  Forall (fun x => length x = 16) R ->
  (forall i, N !! i = f i) ->
  (forall i x, f i = Some x -> R !! i = Some x \/ length x = 16) ->
  Forall (fun x => length x = 16) N.
Proof.
  intros Hlen HR HN Hf. apply Forall_lookup. intros i x Hx. cbn.
  rewrite HN in Hx. destruct (Hf i x Hx) as [H|H]; [|exact H].
  eapply Forall_lookup_1 in HR; eauto.
Qed.

Lemma constrain_wf_key prf keyMat pattern s :
  wf_key s (prf, keyMat) -> length pattern <= 128 ->
  exists s',
    constrain (prf, keyMat) pattern s = (Ok (prf, length (mats s)), s') /\
    wf_key s' (prf, length (mats s)) /\
    mats s' = mats s ++ [[length (rows s); S (length (rows s))]] /\
    length (rows s') = S (S (length (rows s))) /\
    tape s' = tape s /\ pos s' = pos s + 16 * count_fixed pattern.
Proof.
  intros (R0 & R1 & Hk & Hl0 & Hl1 & Ha0 & Ha1) Hpat. cbn [snd] in Hk.
  destruct (constrain_wf_run prf keyMat pattern s R0 R1 Hk Hl0 Hl1 Hpat)
    as (N0 & N1 & s' & Hrun & Hm & Hr & Ht & Hp & HlN0 & HlN1 & Hat).
  exists s'. split; [exact Hrun|]. split.
  { exists N0, N1. split; [now apply key_rows_new|].
    split; [exact HlN0|]. split; [exact HlN1|]. split.
    - apply (Forall_lookup_16 N0 R0 (new_entry0 (tape s) (pos s) pattern R0));
        [lia | exact Ha0 | apply Hat |].
      intros i x. unfold new_entry0.
      destruct (pattern !! i) as [c|]; [|auto].
      destruct (Ascii.eqb c "1"); [|auto].
      intros [= <-]. right. apply token_length.
    - apply (Forall_lookup_16 N1 R1 (new_entry1 (tape s) (pos s) pattern R1));
        [lia | exact Ha1 | apply Hat |].
      intros i x. unfold new_entry1.
      destruct (pattern !! i) as [c|]; [|auto].
      destruct (Ascii.eqb c "1"); [auto|].
      destruct (Ascii.eqb c "0"); [|auto].
      intros [= <-]. right. apply token_length. }
  split; [exact Hm|]. split; [rewrite Hr, length_app; simpl; lia|]. auto.
Qed.

(** [constrain] keeps keys well formed.  For a well-formed key and a
    pattern of at most 128 characters it returns a key with the same PRF
    whose matrix is again 2 x 128 with 16-byte entries; the matrix and
    its two rows are new objects (none is a list of the store before the
    call, so the two keys share no storage), and the call consumes
    exactly 16 bytes of randomness per fixed position. *)
Theorem constrain_returns_wf_key msk pattern s :
  wf_key s msk -> length pattern <= 128 ->
  exists ck s',
    constrain msk pattern s = (Ok ck, s') /\
    fst ck = fst msk /\ wf_key s' ck /\
    length (mats s) <= snd ck /\
    (exists r0 r1, mats s' !! snd ck = Some [r0; r1] /\ r0 <> r1 /\
                   length (rows s) <= r0 /\ length (rows s) <= r1) /\
    pos s' = pos s + 16 * count_fixed pattern.
Proof.
  destruct msk as [prf keyMat]. intros Hwf Hpat.
  destruct (constrain_wf_key prf keyMat pattern s Hwf Hpat)
    as (s' & Hrun & Hwf' & Hm & Hr & Ht & Hp).
  exists (prf, length (mats s)), s'. cbn [fst snd].
  split; [exact Hrun|]. split; [reflexivity|]. split; [exact Hwf'|].
  split; [lia|]. split; [|exact Hp].
  exists (length (rows s)), (S (length (rows s))).
  rewrite Hm, lookup_app_r, Nat.sub_diag by lia. repeat split; lia.
Qed.

Lemma constrain_returns_wf_key_witness :
  exists ck s',
    constrain demo_msk demo_pattern demo_state1 = (Ok ck, s') /\
    fst ck = fst demo_msk /\ wf_key s' ck /\
    length (mats demo_state1) <= snd ck /\
    (exists r0 r1, mats s' !! snd ck = Some [r0; r1] /\ r0 <> r1 /\
                   length (rows demo_state1) <= r0 /\ length (rows demo_state1) <= r1) /\
    pos s' = pos demo_state1 + 16 * count_fixed demo_pattern.
Proof.
  apply (constrain_returns_wf_key demo_msk demo_pattern demo_state1 demo_msk_wf).
  vm_compute. lia.
Defined.

(** ** Constraining twice, and from a fresh key *)

Lemma constrain_agree_run prf keyMat pattern val s :
  wf_key s (prf, keyMat) -> length pattern <= 128 -> agrees pattern val ->
  exists s',
    constrain (prf, keyMat) pattern s = (Ok (prf, length (mats s)), s') /\
    wf_key s' (prf, length (mats s)) /\
    fst (eval (prf, length (mats s)) val s') = fst (eval (prf, keyMat) val s).
Proof.
  intros Hwf Hpat Hag.
  destruct (constrain_wf_key prf keyMat pattern s Hwf Hpat)
    as (s' & Hrun & Hwf' & _).
  exists s'. split; [exact Hrun|]. split; [exact Hwf'|].
  pose proof Hwf as (R0 & R1 & Hk & Hl0 & Hl1 & _). cbn [snd] in Hk.
  destruct (constrain_wf_run prf keyMat pattern s R0 R1 Hk Hl0 Hl1 Hpat)
    as (N0 & N1 & s'' & Hrun' & Hm & Hr & _ & _ & _ & _ & Hat).
  rewrite Hrun in Hrun'. injection Hrun' as <-.
  pose proof (key_rows_new s s' N0 N1 Hm Hr) as Hnew.
  pose proof (key_rows_old s s' keyMat R0 R1 _ _ Hk Hm Hr) as Hold.
  transitivity (fst (eval (prf, keyMat) val s')).
  - apply eval_ext. intros i _.
    destruct (Hat i) as [H0 H1]. eapply constrain_selected_entries; eauto.
  - apply eval_ext. intros i _.
    now rewrite (entry_key_rows _ _ _ _ _ _ Hold), (entry_key_rows _ _ _ _ _ _ Hk).
Qed.

(** Constraining a constrained key: if the bits of [val] agree with the
    fixed positions of both patterns, the key obtained by constraining
    first with [p1] and then with [p2] still evaluates [val] to what the
    master key evaluates it to (for an input of any length, and also when
    that result is an exception). *)
Theorem constrain_twice_consistent msk p1 p2 val s :
  wf_key s msk -> length p1 <= 128 -> length p2 <= 128 ->
  agrees p1 val -> agrees p2 val ->
  exists ck1 s1 ck2 s2,
    constrain msk p1 s = (Ok ck1, s1) /\
    constrain ck1 p2 s1 = (Ok ck2, s2) /\
    fst (eval ck2 val s2) = fst (eval msk val s).
Proof.
  destruct msk as [prf keyMat]. intros Hwf Hp1 Hp2 Ha1 Ha2.
  destruct (constrain_agree_run prf keyMat p1 val s Hwf Hp1 Ha1)
    as (s1 & Hrun1 & Hwf1 & He1).
  destruct (constrain_agree_run prf (length (mats s)) p2 val s1 Hwf1 Hp2 Ha2)
    as (s2 & Hrun2 & _ & He2).
  exists (prf, length (mats s)), s1, (prf, length (mats s1)), s2.
  split; [exact Hrun1|]. split; [exact Hrun2|]. congruence.
Qed.

Lemma demo_agrees2 : agrees (list_ascii_of_string "*01") demo_val.
Proof.
  intros i.
  do 3 (destruct i as [|i];
        [split; intros H; vm_compute in H |- *; (reflexivity || discriminate H)|]).
  split; intros H; discriminate H.
Qed.

Lemma constrain_twice_consistent_witness :
  exists ck1 s1 ck2 s2,
    constrain demo_msk demo_pattern demo_state1 = (Ok ck1, s1) /\
    constrain ck1 (list_ascii_of_string "*01") s1 = (Ok ck2, s2) /\
    fst (eval ck2 demo_val s2) = fst (eval demo_msk demo_val demo_state1).
Proof.
  apply (constrain_twice_consistent demo_msk demo_pattern (list_ascii_of_string "*01")
           demo_val demo_state1 demo_msk_wf).
  - vm_compute. lia.
  - vm_compute. lia.
  - exact demo_agrees.
  - exact demo_agrees2.
Defined.

(** From key generation to evaluation: on any store [keyGen] returns a
    master key; for a pattern of at most 128 characters [constrain]
    returns a constrained key from it; and for every input whose bits
    agree with the pattern the two keys evaluate to the same result.  No
    assumption on the store or on the CMAC library is needed. *)
Theorem keyGen_constrain_eval CMACobj CMAC_new CMAC_update CMAC_digest pattern val s :
  length pattern <= 128 -> agrees pattern val ->
  exists msk s1 ck s2,
    keyGen CMACobj CMAC_new CMAC_update CMAC_digest s = (Ok msk, s1) /\
    constrain msk pattern s1 = (Ok ck, s2) /\
    fst ck = cmacPRF CMACobj CMAC_new CMAC_update CMAC_digest /\
    fst (eval ck val s2) = fst (eval msk val s1).
Proof.
  intros Hpat Hag.
  pose proof (keyGen_run CMACobj CMAC_new CMAC_update CMAC_digest s) as Hgen.
  destruct (keyGen_wf _ _ _ _ _ _ _ Hgen) as [_ Hwf].
  destruct (constrain_agree_run _ _ pattern val _ Hwf Hpat Hag) as (s2 & Hrun & _ & He).
  do 4 eexists. split; [exact Hgen|]. split; [exact Hrun|]. split; [reflexivity|exact He].
Qed.

Lemma keyGen_constrain_eval_witness :
  exists msk s1 ck s2,
    demo_keyGen demo_state0 = (Ok msk, s1) /\
    constrain msk demo_pattern s1 = (Ok ck, s2) /\
    fst ck = demo_prf /\
    fst (eval ck demo_val s2) = fst (eval msk demo_val s1).
Proof.
  apply (keyGen_constrain_eval _ demo_new demo_update demo_digest
           demo_pattern demo_val demo_state0).
  - vm_compute. lia.
  - exact demo_agrees.
Defined.

(** ** Patterns without fixed positions, and patterns that are too long *)

Lemma fixed_spec c : fixed c = true <-> c = "0"%char \/ c = "1"%char.
Proof.
  unfold fixed. rewrite orb_true_iff, !Ascii.eqb_eq. tauto.
Qed.

Lemma rerandomize_fits tp : forall pattern i A B p,
  length A = length B ->
  fst (rerandomize tp pattern i A B p) =
  if fits pattern i (length A) then Ok tt else Raise IndexError.
Proof.
  induction pattern as [|c rest IH]; intros i A B p Hlen; [reflexivity|].
  cbn [rerandomize fits]. unfold fixed.
  destruct (Ascii.eqb c "1"); [|destruct (Ascii.eqb c "0")]; cbn [orb negb andb].
  - destruct (decide (i < length A)) as [Hi|Hi].
    + rewrite IH by now rewrite length_insert. rewrite length_insert.
      now rewrite (proj2 (Nat.ltb_lt _ _) Hi).
    + now rewrite (proj2 (Nat.ltb_ge _ _)) by lia.
  - destruct (decide (i < length B)) as [Hi|Hi].
    + rewrite IH by now rewrite length_insert.
      now rewrite (proj2 (Nat.ltb_lt _ _)) by lia.
    + now rewrite (proj2 (Nat.ltb_ge _ _)) by lia.
  - now apply IH.
Qed.

Lemma fits_spec pattern : forall i n,
  fits pattern i n = true <->
  (forall j c, pattern !! j = Some c -> fixed c = true -> i + j < n).
Proof.
  induction pattern as [|c rest IH]; intros i n; cbn [fits].
  - split; [|reflexivity]. intros _ j c Hj. now rewrite lookup_nil in Hj.
  - rewrite andb_true_iff, orb_true_iff, negb_true_iff, Nat.ltb_lt, IH. split.
    + intros [Hc Hrest] [|j] c' Hj Hfix.
      * injection Hj as <-. destruct Hc as [Hc|Hc]; [congruence | lia].
      * specialize (Hrest j c' Hj Hfix). lia.
    + intros H. split.
      * destruct (fixed c) eqn:Hc; [right | now left].
        specialize (H 0 c eq_refl Hc). lia.
      * intros j c' Hj Hfix. specialize (H (S j) c' Hj Hfix). lia.
Qed.

Lemma rerandomize_no_fixed tp : forall pattern i A B p,
  Forall (fun c => fixed c = false) pattern ->
  rerandomize tp pattern i A B p = (Ok tt, (A, B, p)).
Proof.
  induction pattern as [|c rest IH]; intros i A B p Hall; [reflexivity|].
  inversion Hall as [|? ? Hc Hrest]; subst. cbn [rerandomize].
  unfold fixed in Hc. apply orb_false_iff in Hc as [-> ->]. now apply IH.
Qed.

(** A pattern without ['0'] and ['1'] (empty, all ['*'], or any other
    characters), of any length: [constrain] returns a key over a copy of
    the matrix with the very same entries, reads no randomness, and the
    copy evaluates every input to what the master key evaluates it to. *)
Theorem constrain_no_fixed_position prf keyMat pattern s R0 R1 :
  key_rows s keyMat R0 R1 -> length R0 = 128 -> length R1 = 128 ->
  Forall (fun c => c <> "0"%char /\ c <> "1"%char) pattern ->
  exists newKey s',
    constrain (prf, keyMat) pattern s = (Ok (prf, newKey), s') /\
    newKey <> keyMat /\
    key_rows s' newKey R0 R1 /\
    pos s' = pos s /\
    forall val, fst (eval (prf, newKey) val s') = fst (eval (prf, keyMat) val s).
Proof.
  intros Hk Hl0 Hl1 Hall.
  assert (Hnf : Forall (fun c => fixed c = false) pattern).
  { eapply Forall_impl; [exact Hall|]. intros c [H0 H1]. cbn.
    destruct (fixed c) eqn:Hc; [|reflexivity].
    apply fixed_spec in Hc as [Hc|Hc]; contradiction. }
  exists (length (mats s)). eexists.
  rewrite (constrain_run prf keyMat pattern s R0 R1 Hk Hl0 Hl1).
  rewrite (rerandomize_no_fixed _ _ _ _ _ _ Hnf).
  cbn [bind result_Monad result_bind ret]. split; [reflexivity|].
  assert (Hnew : key_rows
            (State (mats s ++ [[length (rows s); S (length (rows s))]])
                   (rows s ++ [R0; R1]) (tape s) (pos s))
            (length (mats s)) R0 R1) by (eapply key_rows_new; reflexivity).
  split.
  { destruct Hk as (r0 & r1 & Hm & _). apply lookup_lt_Some in Hm. lia. }
  split; [exact Hnew|]. split; [reflexivity|].
  intros val. apply eval_ext. intros i _.
  now rewrite (entry_key_rows _ _ _ _ _ _ Hnew), (entry_key_rows _ _ _ _ _ _ Hk).
Qed.

Lemma constrain_no_fixed_position_witness :
  exists newKey s',
    constrain (demo_prf, 0) (repeat "*"%char 130) demo_state1 = (Ok (demo_prf, newKey), s') /\
    newKey <> 0 /\
    key_rows s' newKey demo_R0 demo_R1 /\
    pos s' = pos demo_state1 /\
    forall val, fst (eval (demo_prf, newKey) val s') = fst (eval (demo_prf, 0) val demo_state1).
Proof.
  apply (constrain_no_fixed_position demo_prf 0 (repeat "*"%char 130) demo_state1
           demo_R0 demo_R1 demo_key_rows).
  - reflexivity.
  - reflexivity.
  - apply Forall_forall. intros c Hc. apply list_elem_of_In, repeat_spec in Hc.
    subst c. split; discriminate.
Defined.

(** The length of the pattern is not checked either.  For a key with a
    2 x 128 matrix, [constrain] returns a key exactly when no ['0'] or
    ['1'] stands at position 128 or beyond (so for every pattern of at most
    128 characters, and for longer ones whose tail fixes nothing), and
    raises [IndexError] when one does. *)
Theorem constrain_pattern_bounds prf keyMat pattern s R0 R1 :
  key_rows s keyMat R0 R1 -> length R0 = 128 -> length R1 = 128 ->
  ((forall j c, pattern !! j = Some c -> c = "0"%char \/ c = "1"%char -> j < 128) ->
   fst (constrain (prf, keyMat) pattern s) = Ok (prf, length (mats s))) /\
  ((exists j c, pattern !! j = Some c /\ (c = "0"%char \/ c = "1"%char) /\ 128 <= j) ->
   fst (constrain (prf, keyMat) pattern s) = Raise IndexError).
Proof.
  intros Hk Hl0 Hl1.
  rewrite (constrain_run prf keyMat pattern s R0 R1 Hk Hl0 Hl1).
  pose proof (rerandomize_fits (tape s) pattern 0 R0 R1 (pos s)) as Hfst.
  rewrite Hl0 in Hfst. specialize (Hfst ltac:(lia)).
  destruct (rerandomize (tape s) pattern 0 R0 R1 (pos s)) as [r [[A' B'] p']].
  cbn [fst] in Hfst |- *. subst r. split.
  - intros Hfit.
    rewrite (proj2 (fits_spec pattern 0 128)); [reflexivity|].
    intros j c Hj Hfix. apply fixed_spec in Hfix. apply (Hfit j c Hj Hfix).
  - intros (j & c & Hj & Hfix & Hge).
    destruct (fits pattern 0 128) eqn:Hfits; [|reflexivity].
    apply fixed_spec in Hfix.
    pose proof (proj1 (fits_spec pattern 0 128) Hfits j c Hj Hfix). lia.
Qed.

Lemma constrain_pattern_bounds_witness :
  fst (constrain (demo_prf, 0) (repeat "*"%char 128 ++ ["1"%char]) demo_state1)
  = Raise IndexError.
Proof.
  apply (constrain_pattern_bounds demo_prf 0 (repeat "*"%char 128 ++ ["1"%char])
           demo_state1 demo_R0 demo_R1 demo_key_rows eq_refl eq_refl).
  exists 128, "1"%char. split; [reflexivity|]. split; [now right | lia].
Defined.

(** ** What the constrained key hides *)

(** The constrained key carries nothing of the entries that the pattern
    rerandomizes.  Take two master keys (in two stores with the same
    random tape at the same position) whose matrices agree wherever the
    pattern does not rerandomize: row 0 at every column that is not ['1'],
    row 1 at every column that is not ['0'].  Then [constrain] builds the
    same matrix from both, entry for entry, and the two constrained keys
    evaluate every input alike. *)
Theorem constrain_hides_rerandomized prf K1 K2 pattern s1 s2 R0 R1 Q0 Q1 :
  key_rows s1 K1 R0 R1 -> key_rows s2 K2 Q0 Q1 ->
  length R0 = 128 -> length R1 = 128 -> length Q0 = 128 -> length Q1 = 128 ->
  length pattern <= 128 ->
  tape s1 = tape s2 -> pos s1 = pos s2 ->
  (forall i, pattern !! i <> Some "1"%char -> R0 !! i = Q0 !! i) ->
  (forall i, pattern !! i <> Some "0"%char -> R1 !! i = Q1 !! i) ->
  exists ck1 s1' ck2 s2' N0 N1,
    constrain (prf, K1) pattern s1 = (Ok ck1, s1') /\
    constrain (prf, K2) pattern s2 = (Ok ck2, s2') /\
    key_rows s1' (snd ck1) N0 N1 /\ key_rows s2' (snd ck2) N0 N1 /\
    forall val, fst (eval ck1 val s1') = fst (eval ck2 val s2').
Proof.
  intros Hk1 Hk2 HlR0 HlR1 HlQ0 HlQ1 Hpat Htape Hpos Hrow0 Hrow1.
  destruct (constrain_wf_run prf K1 pattern s1 R0 R1 Hk1 HlR0 HlR1 Hpat)
    as (N0 & N1 & s1' & Hrun1 & Hm1 & Hr1 & _ & _ & _ & _ & Hat1).
  destruct (constrain_wf_run prf K2 pattern s2 Q0 Q1 Hk2 HlQ0 HlQ1 Hpat)
    as (P0 & P1 & s2' & Hrun2 & Hm2 & Hr2 & _ & _ & _ & _ & Hat2).
  assert (E0 : N0 = P0).
  { apply list_eq. intros i. destruct (Hat1 i) as [-> _]. destruct (Hat2 i) as [-> _].
    unfold new_entry0. rewrite Htape, Hpos.
    destruct (pattern !! i) as [c|] eqn:Hi.
    - destruct (Ascii.eqb c "1") eqn:Hc; [reflexivity|].
      apply Hrow0. rewrite Hi. intros [= ->]. discriminate Hc.
    - apply Hrow0. now rewrite Hi. }
  assert (E1 : N1 = P1).
  { apply list_eq. intros i. destruct (Hat1 i) as [_ ->]. destruct (Hat2 i) as [_ ->].
    unfold new_entry1. rewrite Htape, Hpos.
    destruct (pattern !! i) as [c|] eqn:Hi.
    - destruct (Ascii.eqb c "1") eqn:Hc1.
      + apply Hrow1. rewrite Hi. intros [= ->]. discriminate Hc1.
      + destruct (Ascii.eqb c "0") eqn:Hc0; [reflexivity|].
        apply Hrow1. rewrite Hi. intros [= ->]. discriminate Hc0.
    - apply Hrow1. now rewrite Hi. }
  subst P0 P1.
  pose proof (key_rows_new s1 s1' N0 N1 Hm1 Hr1) as Hnew1.
  pose proof (key_rows_new s2 s2' N0 N1 Hm2 Hr2) as Hnew2.
  exists (prf, length (mats s1)), s1', (prf, length (mats s2)), s2', N0, N1.
  cbn [snd]. repeat split; auto.
  intros val. apply eval_ext. intros i _.
  now rewrite (entry_key_rows _ _ _ _ _ _ Hnew1), (entry_key_rows _ _ _ _ _ _ Hnew2).
Qed.

(** A second master key: [demo_msk] with another entry at row 0, column 0. *)
Lemma constrain_hides_rerandomized_witness :
  let s2 := State [[0; 1]] [<[0 := repeat x00 16]> demo_R0; demo_R1] demo_tape 4096 in
  exists ck1 s1' ck2 s2' N0 N1,
    constrain (demo_prf, 0) demo_pattern demo_state1 = (Ok ck1, s1') /\
    constrain (demo_prf, 0) demo_pattern s2 = (Ok ck2, s2') /\
    key_rows s1' (snd ck1) N0 N1 /\ key_rows s2' (snd ck2) N0 N1 /\
    forall val, fst (eval ck1 val s1') = fst (eval ck2 val s2').
Proof.
  intros s2.
  apply (constrain_hides_rerandomized demo_prf 0 0 demo_pattern demo_state1 s2
           demo_R0 demo_R1 (<[0 := repeat x00 16]> demo_R0) demo_R1 demo_key_rows).
  - exists 0, 1. repeat split.
  - reflexivity.
  - reflexivity.
  - rewrite length_insert. reflexivity.
  - reflexivity.
  - vm_compute. lia.
  - reflexivity.
  - reflexivity.
  - intros [|i] Hi.
    + exfalso. apply Hi. reflexivity.
    + now rewrite list_lookup_insert_ne by lia.
  - reflexivity.
Defined.



(** ** The tree that [eval] computes *)

Lemma sequence_app {A} (l1 l2 : list (result A)) :
  sequence (l1 ++ l2) = (a <- sequence l1 ;; b <- sequence l2 ;; ret (a ++ b)).
Proof.
  induction l1 as [|r l1 IH]; simpl.
  - now destruct (sequence l2).
  - destruct r as [x|e]; simpl; [|reflexivity]. rewrite IH.
    destruct (sequence l1); simpl; [|reflexivity].
    now destruct (sequence l2).
Qed.

Lemma seq_offset off n : seq off n = map (fun j => off + j) (seq 0 n).
Proof.
  revert off. induction n as [|n IH]; intros off; [reflexivity|].
  cbn [seq map]. rewrite Nat.add_0_r. f_equal.
  rewrite (IH (S off)), (IH 1), map_map. apply map_ext. intros j. lia.
Qed.

Lemma bit_of_app_l a b i : i < 8 * length a -> bit_of (a ++ b) i = bit_of a i.
Proof.
  intros Hi. unfold bit_of. rewrite lookup_app_l; [reflexivity|].
  apply Nat.Div0.div_lt_upper_bound. lia.
Qed.

Lemma bit_of_app_r a b i : bit_of (a ++ b) (8 * length a + i) = bit_of b i.
Proof.
  unfold bit_of.
  replace ((8 * length a + i) / 8) with (length a + i / 8)
    by (rewrite (Nat.mul_comm 8), Nat.div_add_l by lia; reflexivity).
  replace ((8 * length a + i) mod 8) with (i mod 8)
    by (rewrite Nat.add_comm, (Nat.mul_comm 8), Nat.Div0.mod_add; reflexivity).
  rewrite lookup_app_r by lia.
  now replace (length a + i / 8 - length a) with (i / 8) by lia.
Qed.

Lemma eval_subtree prf keyMat val s :
  eval (prf, keyMat) val s = (subtree prf keyMat s 0 val, s).
Proof. rewrite eval_run. reflexivity. Qed.

(** The leaves over [a ++ b] are those over [a] followed by those over
    [b] at the columns after [a]. *)
Lemma leaves_app prf keyMat s a b :
  map (spec_leaf prf keyMat (a ++ b) s) (seq 0 (4 * length (a ++ b))) =
  map (leaf_at prf keyMat s 0 a) (seq 0 (4 * length a)) ++
  map (leaf_at prf keyMat s (8 * length a) b) (seq 0 (4 * length b)).
Proof.
  rewrite length_app, Nat.mul_add_distr_l, seq_app, map_app. f_equal.
  - apply map_ext_in. intros j Hj. apply in_seq in Hj.
    unfold spec_leaf, leaf_at. now rewrite !bit_of_app_l by lia.
  - rewrite (seq_offset (0 + 4 * length a)), map_map. apply map_ext. intros j.
    unfold spec_leaf, leaf_at.
    replace (2 * (0 + 4 * length a + j)) with (8 * length a + 2 * j) by lia.
    replace (8 * length a + 2 * j + 1) with (8 * length a + (2 * j + 1)) by lia.
    now rewrite !bit_of_app_r.
Qed.

Lemma pair_at_app_l prf l1 l2 j :
  2 * j + 1 < length l1 -> pair_at prf (l1 ++ l2) j = pair_at prf l1 j.
Proof.
  intros Hj. unfold pair_at, getitem. now rewrite !lookup_app_l by lia.
Qed.

Lemma pair_at_app_r prf l1 l2 n j :
  length l1 = 2 * n -> pair_at prf (l1 ++ l2) (n + j) = pair_at prf l2 j.
Proof.
  intros Hn. unfold pair_at, getitem. rewrite !lookup_app_r by lia.
  replace (2 * (n + j) - length l1) with (2 * j) by lia.
  now replace (2 * (n + j) + 1 - length l1) with (2 * j + 1) by lia.
Qed.

(** A round over two halves of even length is the round over each. *)
Lemma fold_round_app prf l1 l2 n m :
  length l1 = 2 * n -> length l2 = 2 * m ->
  fold_round prf (l1 ++ l2) =
  (t1 <- fold_round prf l1 ;; t2 <- fold_round prf l2 ;; ret (t1 ++ t2)).
Proof.
  intros H1 H2. rewrite !fold_round_run, length_app, H1, H2.
  replace ((2 * n + 2 * m + 1) / 2) with (n + m)
    by (replace (2 * n + 2 * m + 1) with (1 + (n + m) * 2) by lia;
        now rewrite Nat.div_add by lia).
  replace ((2 * n + 1) / 2) with n
    by (replace (2 * n + 1) with (1 + n * 2) by lia; now rewrite Nat.div_add by lia).
  replace ((2 * m + 1) / 2) with m
    by (replace (2 * m + 1) with (1 + m * 2) by lia; now rewrite Nat.div_add by lia).
  rewrite seq_app, map_app, sequence_app.
  replace (map (pair_at prf (l1 ++ l2)) (seq 0 n)) with (map (pair_at prf l1) (seq 0 n)).
  - replace (map (pair_at prf (l1 ++ l2)) (seq (0 + n) m))
      with (map (pair_at prf l2) (seq 0 m)); [reflexivity|].
    rewrite (seq_offset (0 + n)), map_map. apply map_ext. intros j.
    symmetry. now apply pair_at_app_r.
  - apply map_ext_in. intros j Hj. apply in_seq in Hj.
    symmetry. apply pair_at_app_l. lia.
Qed.

(** The root over two halves of [2^k] leaves each is the PRF applied to
    the roots of the halves. *)
Lemma find_root_app prf :
  prf_ok prf ->
  forall k l1 l2,
    length l1 = 2 ^ k -> length l2 = 2 ^ k ->
    Forall (fun x => length x = 16) l1 -> Forall (fun x => length x = 16) l2 ->
    exists x y r,
      find_root prf l1 = Ok x /\ find_root prf l2 = Ok y /\
      length x = 16 /\ length y = 16 /\
      prf x y = Ok r /\ length r = 16 /\ find_root prf (l1 ++ l2) = Ok r.
Proof.
  intros Hprf k. induction k as [|k IH]; intros l1 l2 H1 H2 Ha1 Ha2.
  - destruct l1 as [|x [|? ?]]; simpl in H1; try lia.
    destruct l2 as [|y [|? ?]]; simpl in H2; try lia.
    inversion Ha1 as [|? ? Hx _]; subst. inversion Ha2 as [|? ? Hy _]; subst.
    destruct (Hprf x y Hx) as (r & Hr & Hr16).
    exists x, y, r. rewrite !find_root_eq. cbn [length app].
    destruct (decide (1 < 1)); [lia|]. destruct (decide (1 < 2)); [|lia].
    rewrite fold_round_run. cbn. rewrite Hr. cbn.
    rewrite find_root_eq. cbn. auto 10.
  - rewrite Nat.pow_succ_r' in H1, H2.
    assert (1 <= 2 ^ k) by (apply Nat.le_succ_l, Nat.neq_0_lt_0, Nat.pow_nonzero; lia).
    destruct (fold_round_even prf l1 (2 ^ k)) as (t1 & Ht1 & Hl1 & Hat1); auto.
    destruct (fold_round_even prf l2 (2 ^ k)) as (t2 & Ht2 & Hl2 & Hat2); auto.
    destruct (IH t1 t2 Hl1 Hl2 Hat1 Hat2) as (x & y & r & Hx & Hy & Hx16 & Hy16 & Hr & Hr16 & Hroot).
    exists x, y, r.
    rewrite (find_root_eq prf l1), (find_root_eq prf l2), (find_root_eq prf (l1 ++ l2)).
    rewrite length_app.
    destruct (decide (1 < length l1)); [|lia].
    destruct (decide (1 < length l2)); [|lia].
    destruct (decide (1 < length l1 + length l2)); [|lia].
    rewrite (fold_round_app prf l1 l2 _ _ H1 H2), Ht1, Ht2.
    cbn [bind result_Monad result_bind ret]. auto 10.
Qed.

Lemma is_pow2_exists n : is_pow2 n = true -> exists k, n = 2 ^ k.
Proof.
  unfold is_pow2. intros H. apply Nat.eqb_eq in H. exists (Nat.log2 n). now symmetry.
Qed.

Lemma leaf_at_wf prf keyMat val s off n :
  prf_ok prf -> wf_key s (prf, keyMat) -> off + 2 * n <= 128 ->
  exists leaves,
    sequence (map (leaf_at prf keyMat s off val) (seq 0 n)) = Ok leaves /\
    length leaves = n /\ Forall (fun x => length x = 16) leaves.
Proof.
  intros Hprf (R0 & R1 & Hk & Hwf) Hfit.
  destruct (sequence_map_ok (fun x => length x = 16) (leaf_at prf keyMat s off val)
              (seq 0 n)) as (xs & Hxs & Hl & HF).
  - intros j Hj. apply list_elem_of_In, in_seq in Hj. unfold leaf_at.
    assert (Hent : forall b i, b < 2 -> i < 128 ->
              exists x, fst (entry keyMat b i s) = Ok x /\ length x = 16).
    { intros b i Hb Hi. rewrite (entry_key_rows _ _ _ _ _ _ Hk). cbn [fst].
      destruct Hwf as (Hl0 & Hl1 & Ha0 & Ha1). unfold getitem.
      destruct b as [|[|b]]; [| |lia].
      - destruct (lookup_lt_is_Some_2 R0 i) as [x Hx]; [lia|]. rewrite Hx.
        exists x. split; [reflexivity|]. eapply Forall_lookup_1 in Ha0; eauto.
      - destruct (lookup_lt_is_Some_2 R1 i) as [x Hx]; [lia|]. rewrite Hx.
        exists x. split; [reflexivity|]. eapply Forall_lookup_1 in Ha1; eauto. }
    destruct (Hent (bit_of val (2 * j)) (off + 2 * j)) as (k & -> & Hk16);
      [apply bit_of_bound | lia |].
    destruct (Hent (bit_of val (2 * j + 1)) (off + (2 * j + 1))) as (m & -> & _);
      [apply bit_of_bound | lia |].
    cbn [bind result_Monad result_bind]. now apply Hprf.
  - exists xs. rewrite length_seq in Hl. auto.
Qed.

(** [eval] builds a binary tree, and the result on a prefix is a node of
    the tree of the whole input.  For a well-formed key and a PRF that
    honours its contract, let [a] and [b] have the same length, 1, 2, 4 or
    8 bytes.  Then [eval] on [a ++ b] returns the PRF applied to the result
    of [eval] on [a] (the key) and to the root of the tree over [b] built
    on the columns after those of [a] (the message). *)
Theorem eval_concat prf keyMat a b s :
  prf_ok prf -> wf_key s (prf, keyMat) ->
  length a = length b -> is_pow2 (length a) = true -> length a + length b <= 16 ->
  exists x y r,
    eval (prf, keyMat) a s = (Ok x, s) /\
    subtree prf keyMat s (8 * length a) b = Ok y /\
    prf x y = Ok r /\
    eval (prf, keyMat) (a ++ b) s = (Ok r, s).
Proof.
  intros Hprf Hwf Hab Hpow Hlen.
  destruct (is_pow2_exists _ Hpow) as [k Hk].
  destruct (leaf_at_wf prf keyMat a s 0 (4 * length a) Hprf Hwf) as (la & Hla & Hlla & Haa);
    [lia|].
  destruct (leaf_at_wf prf keyMat b s (8 * length a) (4 * length b) Hprf Hwf)
    as (lb & Hlb & Hllb & Hab16); [lia|].
  assert (H1 : length la = 2 ^ (2 + k)) by (rewrite Nat.pow_add_r; simpl; lia).
  assert (H2 : length lb = 2 ^ (2 + k)) by (rewrite Nat.pow_add_r; simpl; lia).
  destruct (find_root_app prf Hprf _ la lb H1 H2 Haa Hab16)
    as (x & y & r & Hx & Hy & _ & _ & Hr & _ & Hroot).
  exists x, y, r.
  rewrite eval_subtree, eval_run, leaves_app, sequence_app.
  unfold subtree. rewrite Hla, Hlb.
  cbn [bind result_Monad result_bind ret]. rewrite Hx, Hy, Hroot. auto.
Qed.

Lemma eval_concat_witness :
  exists x y r,
    eval demo_msk (firstn 8 demo_val) demo_state1 = (Ok x, demo_state1) /\
    subtree demo_prf 0 demo_state1 (8 * length (firstn 8 demo_val)) (skipn 8 demo_val) = Ok y /\
    demo_prf x y = Ok r /\
    eval demo_msk (firstn 8 demo_val ++ skipn 8 demo_val) demo_state1 = (Ok r, demo_state1).
Proof.
  apply (eval_concat demo_prf 0 (firstn 8 demo_val) (skipn 8 demo_val) demo_state1
           demo_prf_ok demo_msk_wf).
  - reflexivity.
  - reflexivity.
  - vm_compute. lia.
Defined.

(** ** The bit string of the input *)

Lemma parse_format_08b b : parse_bits (format_08b b) = Byte.to_N b.
Proof. destruct b; reflexivity. Qed.

Lemma format_08b_inj b b' : format_08b b = format_08b b' -> b = b'.
Proof.
  intros H. apply (f_equal parse_bits) in H. rewrite !parse_format_08b in H.
  apply (f_equal Byte.of_N) in H. rewrite !Byte.of_to_N in H. now injection H.
Qed.

Lemma format_08b_digits b : Forall (fun c => c = "0"%char \/ c = "1"%char) (format_08b b).
Proof.
  destruct b; cbv [format_08b zfill bin_digits bin_pos Byte.to_N repeat length Nat.sub app];
    repeat (constructor; [first [now left | now right]|]); constructor.
Qed.

Lemma binrep_of_inj : forall v v', binrep_of v = binrep_of v' -> v = v'.
Proof.
  induction v as [|b v IH]; intros v' H.
  - apply (f_equal length) in H. rewrite !binrep_length in H.
    destruct v'; [reflexivity | simpl in H; lia].
  - destruct v' as [|b' v'].
    { apply (f_equal length) in H. rewrite !binrep_length in H. simpl in H. lia. }
    unfold binrep_of in H. cbn [map concat] in H.
    apply app_inj_1 in H as [Hb Hv]; [|now rewrite !format_08b_length].
    f_equal; [now apply format_08b_inj | now apply IH].
Qed.

(** The bit string that [eval] walks along is a faithful encoding of its
    input: it has 8 characters per byte, all of them ['0'] or ['1'];
    the eight digits of byte [i] denote that byte; two inputs with the
    same bit string are equal; and so are two inputs of the same length
    with the same bits, so that two different inputs of one length select
    a different row of the matrix in at least one column. *)
Theorem binrep_faithful v :
  length (binrep_of v) = 8 * length v /\
  Forall (fun c => c = "0"%char \/ c = "1"%char) (binrep_of v) /\
  (forall i b, v !! i = Some b ->
     parse_bits (take 8 (drop (8 * i) (binrep_of v))) = Byte.to_N b) /\
  (forall v', binrep_of v = binrep_of v' -> v = v') /\
  (forall v', length v = length v' ->
     (forall i, i < 8 * length v -> bit_of v i = bit_of v' i) -> v = v').
Proof.
  split; [apply binrep_length|]. split; [|split; [|split]].
  - unfold binrep_of. induction v as [|b v IH]; cbn [map concat]; [constructor|].
    apply Forall_app. split; [apply format_08b_digits | exact IH].
  - induction v as [|b v IH]; intros i x Hi; [now rewrite lookup_nil in Hi|].
    unfold binrep_of. cbn [map concat]. destruct i as [|i].
    + injection Hi as <-. rewrite Nat.mul_0_r, drop_0.
      rewrite take_app_length' by now rewrite format_08b_length.
      apply parse_format_08b.
    + cbn [lookup list_lookup] in Hi.
      replace (8 * S i) with (length (format_08b b) + 8 * i)
        by (rewrite format_08b_length; lia).
      rewrite drop_app_add. now apply IH.
  - apply binrep_of_inj.
  - intros v' Hlen Hbits. apply binrep_of_inj. apply list_eq. intros i.
    destruct (Nat.lt_ge_cases i (8 * length v)) as [Hi|Hi].
    + rewrite !binrep_lookup by lia. now rewrite Hbits.
    + rewrite !lookup_ge_None_2; [reflexivity | |]; rewrite binrep_length; lia.
Qed.
